(** * ANNO newspaper scraper: worker, checkpoint and merge step

    A shallow embedding of [ANNO /03anno_worker_module.py],
    [ANNO /04run_anno_workers.py] and [ANNO /05merging_tool_worker_output.py].

    Python [str] values are Rocq strings whose characters are code points
    below 256; the dictionary [progress] is a [gmap string (list string)];
    the network, the files and the console are threaded through a small
    state-and-exception monad that also logs every effect in order. *)

From Stdlib Require Import Ascii.
From Stdlib Require String.
From stdpp Require Import gmap strings list pretty sorting.

(** ** Text: [str.strip], and the fragment of [re] the module uses *)

Module Text.

(** [str.isspace] on code points below 256; [\s] of a [str] pattern
    matches exactly the same characters. *)
Definition isspace (c : ascii) : bool :=
  let n := nat_of_ascii c in
  (9 <=? n) && (n <=? 13) || (28 <=? n) && (n <=? 32)
  || (n =? 133) || (n =? 160).

(** [\d] of a [str] pattern: the decimal digits below 256. *)
Definition isdigit (c : ascii) : bool :=
  let n := nat_of_ascii c in (48 <=? n) && (n <=? 57).

Fixpoint lstrip (s : string) : string :=
  match s with
  | String c s' => if isspace c then lstrip s' else s
  | EmptyString => EmptyString
  end.

Definition rstrip (s : string) : string :=
  String.rev (lstrip (String.rev s)).

(** [s.strip()] *)
Definition strip (s : string) : string := rstrip (lstrip s).

(** Character classes: [.] under [re.DOTALL], [\s], [\d], a literal. *)
Inductive cls := Any | Space | Digit | Lit (c : ascii).

Definition accepts (p : cls) (c : ascii) : bool :=
  match p with
  | Any => true
  | Space => isspace c
  | Digit => isdigit c
  | Lit a => bool_decide (a = c)
  end.

(** The patterns of the module quantify single characters only. *)
Inductive regex :=
| Eps
| Chr (p : cls)
| Star (p : cls)          (* p*   greedy *)
| StarLazy (p : cls)      (* p*?  lazy   *)
| Seq (r1 r2 : regex).

Fixpoint cat (rs : list regex) : regex :=
  match rs with
  | [] => Eps
  | r :: rs' => Seq r (cat rs')
  end.

(** [p{n}] *)
Definition Rep (n : nat) (p : cls) : regex := cat (replicate n (Chr p)).
(** [p+] *)
Definition Plus (p : cls) : regex := Seq (Chr p) (Star p).

Fixpoint Str (s : string) : regex :=
  match s with
  | EmptyString => Eps
  | String c s' => Seq (Chr (Lit c)) (Str s')
  end.

(** Backtracking search in the order of Python's engine: a greedy star
    tries one more character before the continuation, a lazy star the
    continuation first. [k] is what has to match after the pattern. *)
Section exec.
Context {A : Type}.

Fixpoint star (p : cls) (k : string → option A) (s : string) : option A :=
  match s with
  | String c s' =>
      if accepts p c then
        match star p k s' with
        | Some x => Some x
        | None => k s
        end
      else k s
  | EmptyString => k s
  end.

Fixpoint star_lazy (p : cls) (k : string → option A) (s : string) : option A :=
  match k s with
  | Some x => Some x
  | None =>
      match s with
      | String c s' => if accepts p c then star_lazy p k s' else None
      | EmptyString => None
      end
  end.

Fixpoint exec (r : regex) (k : string → option A) (s : string) : option A :=
  match r with
  | Eps => k s
  | Chr p =>
      match s with
      | String c s' => if accepts p c then k s' else None
      | EmptyString => None
      end
  | Star p => star p k s
  | StarLazy p => star_lazy p k s
  | Seq r1 r2 => exec r1 (exec r2 k) s
  end.
End exec.

(** [re.fullmatch(r, s)] as a truth value. *)
Definition fullmatch (r : regex) (s : string) : bool :=
  bool_decide (is_Some (exec r (λ rest, if rest is EmptyString then Some () else None) s)).

(** [re.sub("^" + r, "", s)] without [re.MULTILINE]: [^] holds at
    position 0 only, so at most the match starting there is replaced;
    the result is what follows that match, or [s] when there is none. *)
Definition sub_prefix (r : regex) (s : string) : string :=
  default s (exec r Some s).

(** The language of a pattern, independent of the search order. *)
Fixpoint all (p : cls) (s : string) : Prop :=
  match s with
  | EmptyString => True
  | String c s' => accepts p c = true ∧ all p s'
  end.

Fixpoint lang (r : regex) (s : string) : Prop :=
  match r with
  | Eps => s = ""
  | Chr p => ∃ c, s = String c "" ∧ accepts p c = true
  | Star p | StarLazy p => all p s
  | Seq r1 r2 => ∃ s1 s2, s = s1 +:+ s2 ∧ lang r1 s1 ∧ lang r2 s2
  end.

End Text.

(** ** The worker module *)

Module Anno.
Import Text.

Definition BASE_URL : string := "https://anno.onb.ac.at".

(** The bracketed header of a page index beyond the issue's last page:
    [\[\s*\d{4}-\d{2}-\d{2}\s*-\s*\d{8}\s*-\s*Seite\s+\d+\s*\]] *)
Definition PLACEHOLDER : regex :=
  cat [ Chr (Lit "["); Star Space;
        Rep 4 Digit; Chr (Lit "-"); Rep 2 Digit; Chr (Lit "-"); Rep 2 Digit;
        Star Space; Chr (Lit "-"); Star Space;
        Rep 8 Digit;
        Star Space; Chr (Lit "-"); Star Space;
        Str "Seite"; Plus Space; Plus Digit; Star Space; Chr (Lit "]") ].

(** [^.*?\]\s*] under [re.DOTALL]; the anchor is in [sub_prefix]. *)
Definition HEADER : regex :=
  cat [ StarLazy Any; Chr (Lit "]"); Star Space ].

(** The exception classes that occur; each derives from [Exception]. *)
Inductive exn :=
| PermissionError (msg : string)
| HTTPError (status : Z)          (* requests: raise_for_status *)
| RequestException                (* requests: no response (connection, timeout, ...) *)
| ValueError                      (* datetime.strptime *)
| TypeError.                      (* [+] of a value that is no [str] and a [str] *)

Definition is_Exception (e : exn) : bool := true.
Definition is_PermissionError (e : exn) : bool :=
  match e with PermissionError _ => true | _ => false end.

Inductive outcome (A : Type) :=
| Return (a : A)
| Raise (e : exn).
Arguments Return {A} a.
Arguments Raise {A} e.

Module Http.
Record response := { status_code : Z; text : string }.
End Http.
Import Http.

(** One row of [output_worker_<id>.csv]. *)
Record record := {
  title : string; aid : string;
  year : Z; month : Z; day : Z;
  page : nat; text : string }.

Inductive message :=
| FehlerBeiSeite (page_index : nat) (e : exn)
| BereitsBegonnen (worker_id : Z) (aid date : string) (pages : nat)
| Beginne (worker_id : Z) (aid date : string)
| Fertig (worker_id : Z) (aid date : string) (pages completed total : nat)
| ZugriffBlockiert (worker_id : Z)
| AlleVerarbeitet (worker_id : Z) (completed : nat).

(** Every effect of a worker, in the order it happens. *)
Inductive event :=
| Get (aid date_str : string) (page_index : nat)     (* session.get(url) is issued *)
| Sleep                                               (* time.sleep(uniform(0.0, 0.01)) *)
| Print (m : message)
| ToCsv (header : bool) (r : record)                  (* a row appended to the output file *)
| Append (key page : string)                          (* progress.setdefault(key, []).append(page) *)
| JsonDump (p : gmap string (list string)).           (* the checkpoint file overwritten *)

(** What one worker process can see and change: its in-memory
    [progress], its two files under [backups/], and the log. *)
Record state := {
  progress : gmap string (list string);
  output_file : option (list record);
  progress_file : option (gmap string (list string));
  trace : list event }.

Definition M (A : Type) : Type := state → outcome A * state.

Definition ret {A} (a : A) : M A := λ σ, (Return a, σ).
Definition raise {A} (e : exn) : M A := λ σ, (Raise e, σ).
Definition bind {A B} (m : M A) (f : A → M B) : M B := λ σ,
  match m σ with
  | (Return a, σ') => f a σ'
  | (Raise e, σ') => (Raise e, σ')
  end.
(** [try: body / except <class>: handler] *)
Definition try_except {A} (body : M A) (class : exn → bool) (handler : exn → M A) : M A := λ σ,
  match body σ with
  | (Return a, σ') => (Return a, σ')
  | (Raise e, σ') => if class e then handler e σ' else (Raise e, σ')
  end.

Declare Scope anno_scope.
Local Notation "x ← m ; k" := (bind m (λ x, k))
  (at level 20, m at level 100, k at level 200, only parsing) : anno_scope.
Local Notation "m ;; k" := (bind m (λ _, k))
  (at level 100, k at level 200, only parsing, right associativity) : anno_scope.
Delimit Scope anno_scope with anno.
Bind Scope anno_scope with M.
Local Open Scope anno_scope.

Definition emit (e : event) : M () := λ σ,
  (Return (), {| progress := progress σ; output_file := output_file σ;
                 progress_file := progress_file σ; trace := trace σ ++ [e] |}).
Definition sleep : M () := emit Sleep.
Definition print (m : message) : M () := emit (Print m).
Definition get_progress : M (gmap string (list string)) := λ σ, (Return (progress σ), σ).

(** [pd.DataFrame([record]).to_csv(output_file, mode="a",
    header=not output_file.exists(), index=False)] *)
Definition to_csv (r : record) : M () := λ σ,
  (Return (), {| progress := progress σ;
                 output_file := Some (default [] (output_file σ) ++ [r]);
                 progress_file := progress_file σ;
                 trace := trace σ ++ [ToCsv (bool_decide (output_file σ = None)) r] |}).

(** [progress.setdefault(key, []).append(page)] *)
Definition setdefault_append (key page : string) : M () := λ σ,
  (Return (), {| progress := <[key := default [] (progress σ !! key) ++ [page]]> (progress σ);
                 output_file := output_file σ;
                 progress_file := progress_file σ;
                 trace := trace σ ++ [Append key page] |}).

(** [save_progress], as one step from the old file to the new one: the
    states in between, after [open(_, "w")] has emptied the file and
    before [json.dump] has written all of the new text, are not
    represented. *)
Definition save_progress (worker_id : Z) : M () := λ σ,
  (Return (), {| progress := progress σ; output_file := output_file σ;
                 progress_file := Some (progress σ);
                 trace := trace σ ++ [JsonDump (progress σ)] |}).

(** [load_progress]: the checkpoint if the file exists, else [{}]. *)
Definition load_progress (worker_id : Z) : M () := λ σ,
  (Return (), {| progress := default ∅ (progress_file σ); output_file := output_file σ;
                 progress_file := progress_file σ; trace := trace σ |}).

(** [Response.raise_for_status] of requests: an [HTTPError] for a
    status from 400 to 599, nothing otherwise. *)
Definition raise_for_status (r : response) : M () :=
  if bool_decide (400 ≤ status_code r < 600)%Z
  then raise (HTTPError (status_code r)) else ret ().

Definition url (aid date_str : string) (page_index : nat) : string :=
  BASE_URL +:+ "/cgi-content/annoshow?text=" +:+ aid +:+ "|" +:+ date_str
    +:+ "|" +:+ pretty page_index.

(** A cell of the column [aid] as [pd.read_csv] gives it: a [str], or a
    value that is none (the [float] NaN of an empty cell, a number of a
    column that holds numbers only). The title is carried as the text
    [to_csv] writes for it, the date as [str(row["date"])]. *)
Inductive cell :=
| IsStr (s : string)
| NotStr.

(** Python truthiness of a [str]. *)
Definition nonempty (s : string) : bool := if s is EmptyString then false else true.

Section worker.
(** The remote endpoint behind the proxy: what [session.get] gives for
    a URL after the effects so far. *)
Variable session_get : list event → string → outcome response.
(** [datetime.strptime(_, "%Y%m%d")] as (year, month, day); [None]
    where it raises [ValueError]. *)
Variable strptime : string → option (Z * Z * Z).

Definition get (aid date_str : string) (page_index : nat) : M response := λ σ,
  let σ' := {| progress := progress σ; output_file := output_file σ;
               progress_file := progress_file σ;
               trace := trace σ ++ [Get aid date_str page_index] |} in
  match session_get (trace σ) (url aid date_str page_index) with
  | Return r => (Return r, σ')
  | Raise e => (Raise e, σ')
  end.

Definition scrape_page (aid date_str : string) (page_index : nat)
  : M (option string * option string) :=
  try_except
    (r ← get aid date_str page_index;
     sleep;;
     if bool_decide (status_code r = 403%Z) then raise (PermissionError "403 Forbidden") else
     if bool_decide (status_code r = 500%Z) then ret (None, Some "server_error_500") else
     raise_for_status r;;
     if fullmatch PLACEHOLDER (strip (Http.text r)) then ret (None, Some "invalid_index") else
     let content := strip (sub_prefix HEADER (Http.text r)) in
     ret (if nonempty content then (Some content, None) else (None, Some "no_content")))
    is_Exception
    (λ e, print (FehlerBeiSeite page_index e);; ret (None, Some "error")).

Definition issue_key (aid date_str : string) : string := aid +:+ "_" +:+ date_str.

(** [already_done_pages = progress.get(key, [])] is the list object
    stored in [progress] when the key is there at the call, so the
    appends made later show in it; otherwise it is a fresh empty list
    that [progress] never holds. *)
Definition already_done_pages (aliased : bool) (key : string) : M (list string) := λ σ,
  (Return (if aliased then default [] (progress σ !! key) else []), σ).

Definition parse_date (date_str : string) : M (Z * Z * Z) :=
  match strptime date_str with
  | Some d => ret d
  | None => raise ValueError
  end.

(** The body of [for page_index in range(1, max_pages + 1)]. *)
Fixpoint scrape_loop (aid title date_str : string) (worker_id : Z) (aliased : bool)
    (pages : list nat) (results : list record) : M (list record) :=
  match pages with
  | [] => ret results
  | page_index :: pages' =>
      done ← already_done_pages aliased (issue_key aid date_str);
      if bool_decide (pretty page_index ∈ done) then
        scrape_loop aid title date_str worker_id aliased pages' results
      else
        res ← scrape_page aid date_str page_index;
        if bool_decide (res.2 ∈ [Some "server_error_500"; Some "no_content"; Some "invalid_index"])
        then ret results
        else
          match res.1 with
          | Some (String c t) =>
              d ← parse_date date_str;
              let record := {| title := title; aid := aid;
                               year := d.1.1; month := d.1.2; day := d.2;
                               page := page_index; text := String c t |} in
              to_csv record;;
              setdefault_append (issue_key aid date_str) (pretty page_index);;
              save_progress worker_id;;
              scrape_loop aid title date_str worker_id aliased pages' (results ++ [record])
          | _ => ret results
          end
  end.

Definition scrape_issue (aid title date_str : string) (worker_id : Z) (max_pages : nat)
  : M (list record) :=
  progress ← get_progress;
  scrape_loop aid title date_str worker_id
    (bool_decide (is_Some (progress !! issue_key aid date_str)))
    (seq 1 max_pages) [].

(** [df[df.index % total_workers == (worker_id - 1)]] with the index
    [0 .. len(df) - 1], for [total_workers ≠ 0]. *)
Definition partition {A} (worker_id total_workers : Z) (df : list A) : list (nat * A) :=
  filter (λ ir, (Z.of_nat ir.1 `mod` total_workers = worker_id - 1)%Z) (imap pair df).

(** The body of [for idx, row in df.iterrows()]; [None] is [break].
    [key = aid + "_" + date] comes first and is outside the [try]: it
    raises [TypeError] when [aid] is no [str]. *)
Fixpoint worker_loop (worker_id : Z) (total : nat)
    (rows : list (nat * (cell * string * string))) (completed : nat) : M nat :=
  match rows with
  | [] => ret completed
  | (idx, (NotStr, title, date)) :: rows' => raise TypeError
  | (idx, (IsStr aid, title, date)) :: rows' =>
      progress ← get_progress;
      (match progress !! issue_key aid date with
       | Some l =>
           if bool_decide (1 ≤ length l)
           then print (BereitsBegonnen worker_id aid date (length l))
           else print (Beginne worker_id aid date)
       | None => print (Beginne worker_id aid date)
       end);;
      next ← try_except
        (result ← scrape_issue aid title date worker_id 100;
         match result with
         | [] => ret (Some completed)
         | _ :: _ =>
             print (Fertig worker_id aid date (length result) (S completed) total);;
             ret (Some (S completed))
         end)
        is_PermissionError
        (λ _, print (ZugriffBlockiert worker_id);; ret None);
      match next with
      | Some completed' => worker_loop worker_id total rows' completed'
      | None => ret completed
      end
  end.

(** [df] is [metadata_selected_np.csv]: rows [(aid, title, date)]. *)
Definition run_worker (df : list (cell * string * string)) (worker_id total_workers : Z) : M () :=
  let df := partition worker_id total_workers df in
  load_progress worker_id;;
  completed ← worker_loop worker_id (length df) df 0;
  print (AlleVerarbeitet worker_id completed).

End worker.

(** [run_all_workers]: the arguments of the twelve processes. *)
Definition run_all_workers : list (Z * Z) :=
  (λ i, (Z.of_nat i, 12%Z)) <$> seq 1 12.

(** The state of a worker process before [run_worker] starts. *)
Definition boot (csv : option (list record)) (checkpoint : option (gmap string (list string))) : state :=
  {| progress := ∅; output_file := csv; progress_file := checkpoint; trace := [] |}.

End Anno.

(** ** The merge step *)

Module Merge.
Import Text Anno.

(** [INPUT_DIR / "anno_pages.csv"], as a name inside [INPUT_DIR]. *)
Definition OUTPUT_FILE : string := "anno_pages.csv".

(** [INPUT_DIR.glob("output_worker_*.csv")] on a file name. *)
Definition GLOB : regex :=
  cat [ Str "output_worker_"; Star Any; Str ".csv" ].

(** [INPUT_DIR] maps a file name to the rows [pd.read_csv] gives. *)
Definition worker_files (dir : gmap string (list record)) : list string :=
  merge_sort String.le (filter (λ f, fullmatch GLOB f = true) (elements (dom dir))).

Definition lex (c k : comparison) : comparison :=
  match c with Eq => k | _ => c end.

(** The order of [sort_values(["aid", "year", "month", "day", "page"])]. *)
Definition compare_rows (r1 r2 : record) : comparison :=
  lex (String.compare (aid r1) (aid r2))
 (lex (year r1 ?= year r2)%Z
 (lex (month r1 ?= month r2)%Z
 (lex (day r1 ?= day r2)%Z
      (page r1 ?= page r2)%nat))).

Definition row_leb (r1 r2 : record) : bool :=
  match compare_rows r1 r2 with Gt => false | _ => true end.
Definition row_le (r1 r2 : record) : Prop := row_leb r1 r2 = true.

(** What the comparisons used have in common: equal keys cannot be
    told apart, "less" is transitive, and swapping the arguments swaps
    the answer. *)
Definition good {R} (c : R → R → comparison) : Prop :=
  (∀ x y z, c x y = Eq → c x z = c y z) ∧
  (∀ x y z, c x y = Lt → c y z = Lt → c x z = Lt) ∧
  (∀ x y, c y x = CompOpp (c x y)).

(** A stable sort: rows with equal keys keep their order. *)
Fixpoint insert_row (x : record) (l : list record) : list record :=
  match l with
  | [] => [x]
  | y :: l' => if row_leb x y then x :: l else y :: insert_row x l'
  end.

Definition sort_values (l : list record) : list record := foldr insert_row [] l.

(** [None] is the [FileNotFoundError]; otherwise the directory after
    [merged.to_csv(OUTPUT_FILE, index=False)]. *)
Definition main (dir : gmap string (list record)) : option (gmap string (list record)) :=
  let worker_files := worker_files dir in
  match worker_files with
  | [] => None
  | _ :: _ =>
      let dfs := (λ file, default [] (dir !! file)) <$> worker_files in
      let merged := concat dfs in
      let merged := sort_values merged in
      Some (<[OUTPUT_FILE := merged]> dir)
  end.

End Merge.

(** ** What the statements below talk about *)

Module Spec.
Import Text Anno Anno.Http.

(** The shape the specification gives for the placeholder body:
    [[ YYYY-MM-DD - YYYYMMDD - Seite N ]] where only the white space
    varies. *)
Definition spaces (s : string) : Prop := all Space s.
Definition digits (n : nat) (s : string) : Prop := all Digit s ∧ String.length s = n.

Definition placeholder (s : string) : Prop :=
  ∃ w1 yyyy mm dd w2 w3 ymd w4 w5 w6 n w7,
    spaces w1 ∧ spaces w2 ∧ spaces w3 ∧ spaces w4 ∧ spaces w5 ∧ spaces w6 ∧ spaces w7 ∧
    w6 ≠ "" ∧ all Digit n ∧ n ≠ "" ∧
    digits 4 yyyy ∧ digits 2 mm ∧ digits 2 dd ∧ digits 8 ymd ∧
    s = "[" +:+ w1 +:+ yyyy +:+ "-" +:+ mm +:+ "-" +:+ dd +:+ w2 +:+ "-" +:+ w3 +:+ ymd
          +:+ w4 +:+ "-" +:+ w5 +:+ "Seite" +:+ w6 +:+ n +:+ w7 +:+ "]".

(** Everything up to and including the first "]" removed, then the
    white space that follows; a body without "]" is left as it is. *)
Fixpoint after_bracket (s : string) : option string :=
  match s with
  | EmptyString => None
  | String c s' => if bool_decide (c = "]"%char) then Some s' else after_bracket s'
  end.
Definition strip_header (s : string) : string :=
  match after_bracket s with
  | Some rest => lstrip rest
  | None => s
  end.

(** The pages [scrape_page] was called for, the rows written and the
    progress entries made, read off a log. *)
Definition gets (evs : list event) : list nat :=
  omap (λ e, if e is Get _ _ p then Some p else None) evs.
Definition rows (evs : list event) : list record :=
  omap (λ e, if e is ToCsv _ r then Some r else None) evs.
Definition appends (evs : list event) : list (string * string) :=
  omap (λ e, if e is Append k p then Some (k, p) else None) evs.
Definition dumps (evs : list event) : list (gmap string (list string)) :=
  omap (λ e, if e is JsonDump p then Some p else None) evs.
Definition sleeps (evs : list event) : list () :=
  omap (λ e, if e is Sleep then Some () else None) evs.

(** The state after one logged effect, and after a run of them: the
    state a crash right after that effect leaves behind. *)
Definition apply (σ : state) (e : event) : state :=
  let σ' := {| progress := progress σ; output_file := output_file σ;
               progress_file := progress_file σ; trace := trace σ ++ [e] |} in
  match e with
  | ToCsv _ r =>
      {| progress := progress σ;
         output_file := Some (default [] (output_file σ) ++ [r]);
         progress_file := progress_file σ; trace := trace σ' |}
  | Append key p =>
      {| progress := <[key := default [] (progress σ !! key) ++ [p]]> (progress σ);
         output_file := output_file σ;
         progress_file := progress_file σ; trace := trace σ' |}
  | JsonDump p =>
      {| progress := progress σ; output_file := output_file σ;
         progress_file := Some p; trace := trace σ' |}
  | _ => σ'
  end.
Definition replay (σ : state) (evs : list event) : state := foldl apply σ evs.

(** The rows of the output file that belong to page [p] of an issue. *)
Definition is_row_of (aid : string) (d : Z * Z * Z) (p : string) (r : record) : Prop :=
  Anno.aid r = aid ∧ (year r, month r, day r) = d ∧ pretty (page r) = p.
Global Instance is_row_of_dec aid d p r : Decision (is_row_of aid d p r).
Proof. unfold is_row_of. apply _. Defined.
Definition rows_of (aid : string) (d : Z * Z * Z) (p : string) (σ : state) : list record :=
  filter (is_row_of aid d p) (default [] (output_file σ)).

(** Pages recorded for a key, in memory and in the checkpoint file. *)
Definition recorded (key : string) (σ : state) : list string :=
  default [] (progress σ !! key) ++ default [] (default ∅ (progress_file σ) !! key).

(** ["1", "2", ..., "k"] *)
Definition pages_upto (k : nat) : list string := pretty <$> seq 1 k.

(** [datetime.strptime(_, "%Y%m%d")] on eight digits with a month
    from 01 to 12 and a day from 01 to 28, for the worked examples. *)
Definition num2 (a b : ascii) : option Z :=
  if isdigit a && isdigit b
  then Some (Z.of_nat (10 * (nat_of_ascii a - 48) + (nat_of_ascii b - 48)))
  else None.
Definition strptime_Ymd (s : string) : option (Z * Z * Z) :=
  match s with
  | String y1 (String y2 (String y3 (String y4 (String m1 (String m2
      (String d1 (String d2 EmptyString))))))) =>
      hi ← num2 y1 y2; lo ← num2 y3 y4; m ← num2 m1 m2; d ← num2 d1 d2;
      let y := (100 * hi + lo)%Z in
      if bool_decide (1 ≤ y ∧ 1 ≤ m ≤ 12 ∧ 1 ≤ d ≤ 28)%Z then Some (y, m, d) else None
  | _ => None
  end.

(** [P] holds after every prefix of the log [evs] run from [σ]: at every
    point of the run, and in the state a crash at that point leaves. *)
Definition always (P : state → Prop) (σ : state) (evs : list event) : Prop :=
  ∀ evs1 evs2, evs = evs1 ++ evs2 → P (replay σ evs1).

(** The rows of an issue and the pages recorded for it in memory
    correspond one to one, and the checkpoint records no other page. *)
Definition one_to_one (aid : string) (d : Z * Z * Z) (key : string) (σ : state) : Prop :=
  (∀ p, p ∈ default [] (default ∅ (progress_file σ) !! key) →
        p ∈ default [] (progress σ !! key)) ∧
  ∀ p, length (rows_of aid d p σ)
       = if decide (p ∈ default [] (progress σ !! key)) then 1 else 0.

(** The order of the writes in a log: a row is appended to the output
    file, then its page is appended to [progress], then [progress] is
    written to the checkpoint file, one directly after the other, and
    no such write occurs in any other way. *)
Inductive write_order (aid key : string) : list event → Prop :=
| write_order_nil : write_order aid key []
| write_order_other e evs :
    match e with Get _ _ _ | Sleep | Print _ => True | _ => False end →
    write_order aid key evs →
    write_order aid key (e :: evs)
| write_order_page h r l m evs :
    Anno.aid r = aid →
    m !! key = Some (l ++ [pretty (page r)]) →
    write_order aid key evs →
    write_order aid key (ToCsv h r :: Append key (pretty (page r)) :: JsonDump m :: evs).

(** Each list of pages is ["1" .. "k"] for some [k]. *)
Definition contiguous (m : gmap string (list string)) : Prop :=
  ∀ key l, m !! key = Some l → ∃ k, l = pages_upto k.

(** The same of the in-memory [progress] and of the checkpoint file. *)
Definition stored_contiguous (σ : state) : Prop :=
  contiguous (progress σ) ∧ ∀ m, progress_file σ = Some m → contiguous m.

(** Two states with the same [progress] and the same two files. *)
Definition same_store (σ1 σ2 : state) : Prop :=
  progress σ1 = progress σ2 ∧ output_file σ1 = output_file σ2 ∧
  progress_file σ1 = progress_file σ2.

(** The log has a delay, and a request after it. *)
Definition delay_before_request (evs : list event) : Prop :=
  ∃ evs1 evs2 a d p, evs = evs1 ++ Sleep :: evs2 ∧ Get a d p ∈ evs2.

(** What a call of [scrape_page] may log after the request itself. *)
Definition quiet (e : event) : Prop :=
  match e with Sleep | Print _ => True | _ => False end.

(** The results on which [scrape_issue] goes on to the next page. *)
Definition content (res : option string * option string) : Prop :=
  (res.2 ∉ [Some "server_error_500"; Some "no_content"; Some "invalid_index"]) ∧
  (∃ c t, res.1 = Some (String c t)).

(** The pages a call of [scrape_issue] has left to request: those from
    1 to [max_pages] whose number [done] does not hold, in this order. *)
Definition unrecorded (done : list string) (max_pages : nat) : list nat :=
  filter (λ p, pretty p ∉ done) (seq 1 max_pages).

(** The pages of [already_done_pages] as the loop sees them. *)
Definition done_pages (aliased : bool) (key : string) (σ : state) : list string :=
  if aliased then default [] (progress σ !! key) else [].

(** Every page recorded under [key] has a row of the issue with the
    newspaper id [aid] and the date [d] in the output file: at least one
    row, and exactly one row. *)
Definition consistent (aid : string) (d : Z * Z * Z) (key : string) (σ : state) : Prop :=
  ∀ p, p ∈ recorded key σ → rows_of aid d p σ ≠ [].
Definition consistent1 (aid : string) (d : Z * Z * Z) (key : string) (σ : state) : Prop :=
  ∀ p, p ∈ recorded key σ → length (rows_of aid d p σ) = 1.

Section scan.
Variable session_get : list event → string → outcome response.
Variable strptime : string → option (Z * Z * Z).
Variables (aid title date_str : string) (worker_id : Z) (aliased : bool).

(** The runs of the page loop, case by case: the pages left, the
    rows collected, the state before, the outcome and the log. *)
Inductive scan : list nat → list record → state → outcome (list record) → list event → Prop :=
| scan_end results σ :
    scan [] results σ (Return results) []
| scan_skip p ps results σ out evs :
    pretty p ∈ done_pages aliased (issue_key aid date_str) σ →
    scan ps results σ out evs →
    scan (p :: ps) results σ out evs
| scan_stop p ps results σ res tl :
    pretty p ∉ done_pages aliased (issue_key aid date_str) σ →
    scrape_page session_get aid date_str p σ
      = (Return res, replay σ (Get aid date_str p :: tl)) →
    Forall quiet tl →
    ¬ content res →
    scan (p :: ps) results σ (Return results) (Get aid date_str p :: tl)
| scan_bad_date p ps results σ res tl :
    pretty p ∉ done_pages aliased (issue_key aid date_str) σ →
    scrape_page session_get aid date_str p σ
      = (Return res, replay σ (Get aid date_str p :: tl)) →
    Forall quiet tl →
    content res →
    strptime date_str = None →
    scan (p :: ps) results σ (Raise ValueError) (Get aid date_str p :: tl)
| scan_page p ps results σ res tl d t r σ1 out evs :
    pretty p ∉ done_pages aliased (issue_key aid date_str) σ →
    scrape_page session_get aid date_str p σ
      = (Return res, replay σ (Get aid date_str p :: tl)) →
    Forall quiet tl →
    content res → res.1 = Some t →
    strptime date_str = Some d →
    r = {| Anno.title := title; Anno.aid := aid;
           year := d.1.1; month := d.1.2; day := d.2;
           page := p; Anno.text := t |} →
    σ1 = replay σ (Get aid date_str p :: tl) →
    scan ps (results ++ [r])
         (replay σ1 [ToCsv (bool_decide (output_file σ1 = None)) r;
                     Append (issue_key aid date_str) (pretty p);
                     JsonDump (<[issue_key aid date_str :=
                                  default [] (progress σ1 !! issue_key aid date_str)
                                  ++ [pretty p]]> (progress σ1))])
         out evs →
    scan (p :: ps) results σ out
         ((Get aid date_str p :: tl)
          ++ [ToCsv (bool_decide (output_file σ1 = None)) r;
              Append (issue_key aid date_str) (pretty p);
              JsonDump (<[issue_key aid date_str :=
                           default [] (progress σ1 !! issue_key aid date_str)
                           ++ [pretty p]]> (progress σ1))]
          ++ evs).
End scan.

(** ** The whole worker *)

(** The message [run_worker] prints before it scrapes an issue. *)
Definition start_message (worker_id : Z) (aid date : string) (σ : state) : message :=
  match progress σ !! issue_key aid date with
  | Some l =>
      if bool_decide (1 ≤ length l)
      then BereitsBegonnen worker_id aid date (length l)
      else Beginne worker_id aid date
  | None => Beginne worker_id aid date
  end.

(** The state after [load_progress]. *)
Definition loaded (σ : state) : state :=
  {| progress := default ∅ (progress_file σ); output_file := output_file σ;
     progress_file := progress_file σ; trace := trace σ |}.

(** The checkpoint file holds what [progress] holds. *)
Definition synced (σ : state) : Prop := default ∅ (progress_file σ) = progress σ.

(** Nothing recorded or written in [σ] is missing in [σ']: every list of
    [progress] and the output file have only grown at the end. *)
Definition extends (σ σ' : state) : Prop :=
  (∀ k, default [] (progress σ !! k) `prefix_of` default [] (progress σ' !! k)) ∧
  default [] (output_file σ) `prefix_of` default [] (output_file σ').

(** A string without the separator of [issue_key]. *)
Fixpoint no_underscore (s : string) : Prop :=
  match s with
  | EmptyString => True
  | String c s' => c ≠ "_"%char ∧ no_underscore s'
  end.

Section worker_run.
Variable session_get : list event → string → outcome response.
Variable strptime : string → option (Z * Z * Z).
Variables (worker_id : Z) (total : nat).

(** The runs of the issue loop of [run_worker], case by case: the rows
    left, the count so far, the state before, the outcome and the log. *)
Inductive worker_run :
  list (nat * (cell * string * string)) → nat → state → outcome nat → list event → Prop :=
| worker_run_end completed σ :
    worker_run [] completed σ (Return completed) []
| worker_run_issue idx aid title date rows completed σ σ1 results evs fin completed' out evs' :
    σ1 = apply σ (Print (start_message worker_id aid date σ)) →
    scan session_get strptime aid title date
         (bool_decide (is_Some (progress σ1 !! issue_key aid date)))
         (seq 1 100) [] σ1 (Return results) evs →
    (results = [] ∧ fin = [] ∧ completed' = completed) ∨
    (results ≠ [] ∧
     fin = [Print (Fertig worker_id aid date (length results) (S completed) total)] ∧
     completed' = S completed) →
    worker_run rows completed' (replay σ1 (evs ++ fin)) out evs' →
    worker_run ((idx, (IsStr aid, title, date)) :: rows) completed σ out
               (Print (start_message worker_id aid date σ) :: evs ++ fin ++ evs')
| worker_run_raise idx aid title date rows completed σ σ1 evs :
    σ1 = apply σ (Print (start_message worker_id aid date σ)) →
    scan session_get strptime aid title date
         (bool_decide (is_Some (progress σ1 !! issue_key aid date)))
         (seq 1 100) [] σ1 (Raise ValueError) evs →
    worker_run ((idx, (IsStr aid, title, date)) :: rows) completed σ (Raise ValueError)
               (Print (start_message worker_id aid date σ) :: evs)
| worker_run_not_str idx title date rows completed σ :
    worker_run ((idx, (NotStr, title, date)) :: rows) completed σ (Raise TypeError) [].
End worker_run.

End Spec.

(** * Facts *)

(** ** Patterns *)

Section text_facts.
Import Text.

Lemma str_app_nil_l (s : string) : "" +:+ s = s.
Proof. reflexivity. Qed.

Lemma str_app_cons (c : ascii) (s t : string) : String c s +:+ t = String c (s +:+ t).
Proof. reflexivity. Qed.

Lemma str_app_nil_r (s : string) : s +:+ "" = s.
Proof. induction s as [|c s IH]; [done|]. by rewrite str_app_cons, IH. Qed.

Lemma app_assoc_s (a b c : string) : (a +:+ b) +:+ c = a +:+ (b +:+ c).
Proof. induction a as [|x a IH]; [done|]. by rewrite !str_app_cons, IH. Qed.

Lemma str_app_eq_nil (a b : string) : a +:+ b = "" → a = "" ∧ b = "".
Proof. destruct a; [done|]. rewrite str_app_cons. done. Qed.

Lemma length_app_s (a b : string) :
  String.length (a +:+ b) = String.length a + String.length b.
Proof. induction a as [|x a IH]; [done|]. rewrite str_app_cons. simpl. by rewrite IH. Qed.

Lemma all_app p a b : all p (a +:+ b) ↔ all p a ∧ all p b.
Proof.
  induction a as [|x a IH]; [rewrite str_app_nil_l; simpl; tauto|].
  rewrite str_app_cons. simpl. tauto.
Qed.

Section search.
Context {A : Type}.
Implicit Types (k : string → option A) (s : string).

Lemma star_some p k s :
  is_Some (star p k s) ↔ ∃ s1 s2, s = s1 +:+ s2 ∧ all p s1 ∧ is_Some (k s2).
Proof.
  split.
  - induction s as [|c s IH]; simpl.
    + intros Hk. by exists "", "".
    + destruct (accepts p c) eqn:Hc.
      * destruct (star p k s) as [x|] eqn:Hs.
        -- intros _. destruct IH as (s1 & s2 & -> & H1 & H2); [done|].
           exists (String c s1), s2. by rewrite str_app_cons.
        -- intros Hk. by exists "", (String c s).
      * intros Hk. by exists "", (String c s).
  - intros (s1 & s2 & -> & H1 & H2).
    induction s1 as [|c s1 IH].
    + rewrite str_app_nil_l. destruct s2 as [|c s2]; simpl; [done|].
      destruct (accepts p c); [|done]. by destruct (star p k s2).
    + destruct H1 as [Hc H1]. rewrite str_app_cons. simpl. rewrite Hc.
      destruct (IH H1) as [x ->]. done.
Qed.

Lemma star_lazy_some p k s :
  is_Some (star_lazy p k s) ↔ ∃ s1 s2, s = s1 +:+ s2 ∧ all p s1 ∧ is_Some (k s2).
Proof.
  split.
  - induction s as [|c s IH]; simpl.
    + destruct (k "") eqn:Hk; [|by intros []]. intros _. exists "", "". by rewrite Hk.
    + destruct (k (String c s)) eqn:Hk.
      { intros _. exists "", (String c s). by rewrite Hk. }
      destruct (accepts p c) eqn:Hc; [|by intros []].
      intros Hs. destruct (IH Hs) as (s1 & s2 & -> & H1 & H2).
      exists (String c s1), s2. by rewrite str_app_cons.
  - intros (s1 & s2 & -> & H1 & H2).
    induction s1 as [|c s1 IH].
    + rewrite str_app_nil_l. destruct H2 as [x Hx]. destruct s2; simpl; by rewrite Hx.
    + destruct H1 as [Hc H1]. rewrite str_app_cons. simpl. rewrite Hc.
      destruct (k (String c (s1 +:+ s2))); [eauto|]. by apply IH.
Qed.

(** The search succeeds exactly when some prefix is in the language
    and the continuation accepts what is left. *)
Lemma exec_some r k s :
  is_Some (exec r k s) ↔ ∃ s1 s2, s = s1 +:+ s2 ∧ lang r s1 ∧ is_Some (k s2).
Proof.
  revert k s. induction r as [|p|p|p|r1 IH1 r2 IH2]; intros k s; simpl.
  - split; [by exists "", s|]. by intros (s1 & s2 & -> & -> & H).
  - split.
    + destruct s as [|c s]; [by intros []|].
      destruct (accepts p c) eqn:Hc; [|by intros []].
      intros Hk. exists (String c ""), s. eauto.
    + intros (s1 & s2 & -> & (c & -> & Hc) & H). rewrite str_app_cons. by rewrite Hc.
  - apply star_some.
  - apply star_lazy_some.
  - rewrite IH1. split.
    + intros (s1 & s2 & -> & H1 & H2). apply IH2 in H2 as (t1 & t2 & -> & H2 & H3).
      exists (s1 +:+ t1), t2. rewrite app_assoc_s. eauto 10.
    + intros (s' & s2 & -> & (s1 & t1 & -> & H1 & H2) & H3).
      exists s1, (t1 +:+ s2). rewrite app_assoc_s. split; [done|]. split; [done|].
      apply IH2. eauto.
Qed.
End search.

Lemma fullmatch_lang r s : fullmatch r s = true ↔ lang r s.
Proof.
  unfold fullmatch. rewrite bool_decide_eq_true, exec_some. split.
  - intros (s1 & s2 & -> & H1 & H2). destruct s2; [|by destruct H2].
    by rewrite str_app_nil_r.
  - intros H. exists s, "". by rewrite str_app_nil_r.
Qed.

Lemma lang_Rep n p s : lang (Rep n p) s ↔ all p s ∧ String.length s = n.
Proof.
  revert s. induction n as [|n IH]; intros s; unfold Rep; simpl.
  - split; [by intros ->|]. intros [_ H]. by destruct s.
  - split.
    + intros (s1 & s2 & -> & (c & -> & Hc) & H2). apply IH in H2 as [H2 <-].
      rewrite str_app_cons. simpl. done.
    + intros [H1 H2]. destruct s as [|c s]; [done|]. destruct H1 as [Hc H1].
      exists (String c ""), s. split; [done|]. split; [eauto|].
      apply IH. split; [done|]. simpl in H2. lia.
Qed.

Lemma lang_Plus p s : lang (Plus p) s ↔ all p s ∧ s ≠ "".
Proof.
  unfold Plus. simpl. split.
  - intros (s1 & s2 & -> & (c & -> & Hc) & H2). by rewrite str_app_cons.
  - intros [H1 H2]. destruct s as [|c s]; [done|]. destruct H1 as [Hc H1].
    exists (String c ""), s. eauto.
Qed.

Lemma lang_Str t s : lang (Str t) s ↔ s = t.
Proof.
  revert s. induction t as [|c t IH]; intros s; simpl; [done|]. split.
  - intros (s1 & s2 & -> & (c' & -> & Hc) & H2). apply IH in H2 as ->.
    apply bool_decide_eq_true in Hc as ->. done.
  - intros ->. exists (String c ""), t. split; [done|]. split; [|by apply IH].
    exists c. split; [done|]. by apply bool_decide_eq_true.
Qed.

Lemma lang_Lit c s : lang (Chr (Lit c)) s ↔ s = String c "".
Proof.
  simpl. split.
  - intros (c' & -> & Hc). by apply bool_decide_eq_true in Hc as ->.
  - intros ->. exists c. split; [done|]. by apply bool_decide_eq_true.
Qed.

Lemma lang_cat_cons r rs s :
  lang (cat (r :: rs)) s ↔ ∃ s1 s2, s = s1 +:+ s2 ∧ lang r s1 ∧ lang (cat rs) s2.
Proof. done. Qed.

Lemma lang_cat_nil s : lang (cat []) s ↔ s = "".
Proof. done. Qed.

Lemma star_space_lstrip s : star Space Some s = Some (lstrip s).
Proof.
  induction s as [|c s IH]; simpl; [done|].
  destruct (isspace c); [by rewrite IH|done].
Qed.

End text_facts.

(** ** The two patterns of [scrape_page] *)

Section pattern_facts.
Import Text Anno Spec.

Lemma lang_cat_single r s : lang (cat [r]) s ↔ lang r s.
Proof.
  simpl. split.
  - intros (s1 & s2 & -> & H & ->). by rewrite str_app_nil_r.
  - intros H. exists s, "". by rewrite str_app_nil_r.
Qed.

Local Ltac split_cat H x Hx :=
  apply lang_cat_cons in H as (x & ? & -> & Hx & H).
Local Ltac build_cat :=
  apply lang_cat_cons; eexists _, _; split; [reflexivity|split].

(** The pattern of the source accepts exactly the shape the
    specification describes. *)
Lemma PLACEHOLDER_shape s : fullmatch PLACEHOLDER s = true ↔ placeholder s.
Proof.
  rewrite fullmatch_lang. unfold PLACEHOLDER, placeholder, spaces, digits. split.
  - intros H.
    split_cat H a1 H1. split_cat H w1 H2. split_cat H yyyy H3.
    split_cat H a4 H4. split_cat H mm H5. split_cat H a6 H6.
    split_cat H dd H7. split_cat H w2 H8. split_cat H a9 H9.
    split_cat H w3 H10. split_cat H ymd H11. split_cat H w4 H12.
    split_cat H a13 H13. split_cat H w5 H14. split_cat H a15 H15.
    split_cat H w6 H16. split_cat H n H17. split_cat H w7 H18.
    apply (proj1 (lang_cat_single _ _)) in H.
    apply lang_Lit in H1 as ->, H4 as ->, H6 as ->, H9 as ->, H13 as ->, H as ->.
    apply lang_Str in H15 as ->.
    apply lang_Rep in H3 as [??]. apply lang_Rep in H5 as [??].
    apply lang_Rep in H7 as [??]. apply lang_Rep in H11 as [??].
    apply lang_Plus in H16 as [??], H17 as [??].
    exists w1, yyyy, mm, dd, w2, w3, ymd, w4, w5, w6, n, w7.
    repeat split; try done; naive_solver.
  - intros (w1 & yyyy & mm & dd & w2 & w3 & ymd & w4 & w5 & w6 & n & w7 &
            ? & ? & ? & ? & ? & ? & ? & ? & ? & ? & ? & ? & ? & ? & ->).
    build_cat; [by apply lang_Lit|]. build_cat; [done|].
    build_cat; [by apply lang_Rep|]. build_cat; [by apply lang_Lit|].
    build_cat; [by apply lang_Rep|]. build_cat; [by apply lang_Lit|].
    build_cat; [by apply lang_Rep|]. build_cat; [done|].
    build_cat; [by apply lang_Lit|]. build_cat; [done|].
    build_cat; [by apply lang_Rep|]. build_cat; [done|].
    build_cat; [by apply lang_Lit|]. build_cat; [done|].
    build_cat; [by apply lang_Str|]. build_cat; [by apply lang_Plus|].
    build_cat; [by apply lang_Plus|]. build_cat; [done|].
    apply lang_cat_single. by apply lang_Lit.
Qed.

Lemma HEADER_search s :
  exec HEADER Some s = lstrip <$> after_bracket s.
Proof.
  unfold HEADER. simpl.
  induction s as [|c s IH]; simpl; [done|].
  rewrite star_space_lstrip.
  destruct (bool_decide ("]"%char = c)) eqn:Hc.
  - apply bool_decide_eq_true in Hc as <-. done.
  - apply bool_decide_eq_false in Hc. rewrite bool_decide_false by congruence.
    exact IH.
Qed.

(** [re.sub(r"^.*?\]\s*", "", s, flags=re.DOTALL)] removes the text up
    to the first "]" and the white space after it. *)
Lemma HEADER_sub s : sub_prefix HEADER s = strip_header s.
Proof.
  unfold sub_prefix, strip_header. rewrite HEADER_search.
  by destruct (after_bracket s).
Qed.

End pattern_facts.

(** ** One call of [scrape_page] *)

Section page_facts.
Import Text Anno Anno.Http Spec.
Variable session_get : list event → string → outcome response.
Implicit Types (σ : state) (r : response).

Local Ltac run_page H :=
  unfold scrape_page, try_except, bind, get, sleep, print, emit, raise_for_status,
    raise, ret, replay; rewrite H; simpl.

Lemma scrape_page_raise aid date_str p σ e :
  session_get (trace σ) (url aid date_str p) = Raise e →
  scrape_page session_get aid date_str p σ
    = (Return (None, Some "error"),
       replay σ [Get aid date_str p; Print (FehlerBeiSeite p e)]).
Proof. intros H. run_page H. done. Qed.

Lemma scrape_page_403 aid date_str p σ r :
  session_get (trace σ) (url aid date_str p) = Return r →
  status_code r = 403%Z →
  scrape_page session_get aid date_str p σ
    = (Return (None, Some "error"),
       replay σ [Get aid date_str p; Sleep;
                 Print (FehlerBeiSeite p (PermissionError "403 Forbidden"))]).
Proof. intros H E. run_page H. rewrite E. done. Qed.

Lemma scrape_page_500 aid date_str p σ r :
  session_get (trace σ) (url aid date_str p) = Return r →
  status_code r = 500%Z →
  scrape_page session_get aid date_str p σ
    = (Return (None, Some "server_error_500"),
       replay σ [Get aid date_str p; Sleep]).
Proof. intros H E. run_page H. rewrite E. done. Qed.

Lemma scrape_page_http_error aid date_str p σ r :
  session_get (trace σ) (url aid date_str p) = Return r →
  status_code r ≠ 403%Z → status_code r ≠ 500%Z →
  (400 ≤ status_code r < 600)%Z →
  scrape_page session_get aid date_str p σ
    = (Return (None, Some "error"),
       replay σ [Get aid date_str p; Sleep;
                 Print (FehlerBeiSeite p (HTTPError (status_code r)))]).
Proof.
  intros H E1 E2 E3. run_page H.
  rewrite !bool_decide_false by done. rewrite bool_decide_true by done. done.
Qed.

Lemma scrape_page_body aid date_str p σ r :
  session_get (trace σ) (url aid date_str p) = Return r →
  ¬ (400 ≤ status_code r < 600)%Z →
  scrape_page session_get aid date_str p σ
    = (Return (if fullmatch PLACEHOLDER (strip (Http.text r))
               then (None, Some "invalid_index")
               else if nonempty (strip (sub_prefix HEADER (Http.text r)))
                    then (Some (strip (sub_prefix HEADER (Http.text r))), None)
                    else (None, Some "no_content")),
       replay σ [Get aid date_str p; Sleep]).
Proof.
  intros H E. run_page H.
  rewrite (bool_decide_false (status_code r = 403%Z)) by lia.
  rewrite (bool_decide_false (status_code r = 500%Z)) by lia.
  rewrite (bool_decide_false (_ ≤ _ < _)%Z) by done. simpl.
  by destruct (fullmatch PLACEHOLDER _).
Qed.

(** [scrape_page] always returns, never raises, and touches neither
    [progress] nor the two files. *)
Lemma scrape_page_run aid date_str p σ :
  ∃ res tl,
    scrape_page session_get aid date_str p σ
      = (Return res, replay σ (Get aid date_str p :: tl)) ∧
    Forall quiet tl.
Proof.
  destruct (session_get (trace σ) (url aid date_str p)) as [r|e] eqn:H.
  - destruct (decide (status_code r = 403%Z)) as [E1|E1].
    { eexists _, _. split; [by eapply scrape_page_403|]. repeat constructor. }
    destruct (decide (status_code r = 500%Z)) as [E2|E2].
    { eexists _, _. split; [by eapply scrape_page_500|]. repeat constructor. }
    destruct (decide (400 ≤ status_code r < 600)%Z) as [E3|E3].
    { eexists _, _. split; [by eapply scrape_page_http_error|]. repeat constructor. }
    eexists _, _. split; [by eapply scrape_page_body|]. repeat constructor.
  - eexists _, _. split; [by apply scrape_page_raise|]. repeat constructor.
Qed.

End page_facts.

(** ** The page loop of [scrape_issue] *)

Section loop_facts.
Import Text Anno Anno.Http Spec.
Variable session_get : list event → string → outcome response.
Variable strptime : string → option (Z * Z * Z).
Variables (aid title date_str : string) (worker_id : Z) (aliased : bool).
Implicit Types (σ : state) (ps : list nat) (results : list record).

Local Abbreviation key := (issue_key aid date_str).
Local Abbreviation loop :=
  (scrape_loop session_get strptime aid title date_str worker_id aliased).
Local Abbreviation scan := (Spec.scan session_get strptime aid title date_str aliased).

Lemma replay_app σ evs1 evs2 : replay σ (evs1 ++ evs2) = replay (replay σ evs1) evs2.
Proof. apply foldl_app. Qed.

Lemma scrape_loop_skip p ps results σ :
  pretty p ∈ done_pages aliased key σ →
  loop (p :: ps) results σ = loop ps results σ.
Proof.
  intros H. simpl. unfold bind at 1. unfold already_done_pages at 1.
  fold (done_pages aliased key σ). by rewrite bool_decide_true.
Qed.

Lemma scrape_loop_fetch p ps results σ res σ1 :
  pretty p ∉ done_pages aliased key σ →
  scrape_page session_get aid date_str p σ = (Return res, σ1) →
  loop (p :: ps) results σ =
    if bool_decide (res.2 ∈ [Some "server_error_500"; Some "no_content"; Some "invalid_index"])
    then (Return results, σ1)
    else match res.1 with
         | Some (String c t) =>
             match strptime date_str with
             | None => (Raise ValueError, σ1)
             | Some d =>
                 let r := {| Anno.title := title; Anno.aid := aid;
                             year := d.1.1; month := d.1.2; day := d.2;
                             page := p; Anno.text := String c t |} in
                 loop ps (results ++ [r])
                   (replay σ1 [ToCsv (bool_decide (output_file σ1 = None)) r;
                               Append key (pretty p);
                               JsonDump (<[key := default [] (progress σ1 !! key)
                                                  ++ [pretty p]]> (progress σ1))])
             end
         | _ => (Return results, σ1)
         end.
Proof.
  intros H Hp. simpl. unfold bind at 1. unfold already_done_pages at 1.
  fold (done_pages aliased key σ). rewrite bool_decide_false by done.
  unfold bind at 1. rewrite Hp.
  destruct (bool_decide (res.2 ∈ _)); [done|].
  destruct (res.1) as [[|c t]|]; [done| |done].
  unfold bind at 1, parse_date. destruct (strptime date_str) as [d|]; [|done].
  reflexivity.
Qed.

(** Every run of the loop is one of the runs [scan] describes, and
    its final state is the replay of its log. *)
Lemma scrape_loop_scan ps results σ :
  ∃ out evs, loop ps results σ = (out, replay σ evs) ∧ scan ps results σ out evs.
Proof.
  revert results σ. induction ps as [|p ps IH]; intros results σ.
  { exists (Return results), []. split; [done|]. constructor. }
  destruct (decide (pretty p ∈ done_pages aliased key σ)) as [Hd|Hd].
  { rewrite scrape_loop_skip by done.
    destruct (IH results σ) as (out & evs & E & Hs).
    exists out, evs. split; [done|]. by constructor. }
  destruct (scrape_page_run session_get aid date_str p σ) as (res & tl & Hp & Hq).
  rewrite (scrape_loop_fetch _ _ _ _ _ _ Hd Hp).
  case_bool_decide as Hres.
  { eexists _, _. split; [done|]. eapply scan_stop; eauto. by intros [? _]. }
  destruct (res.1) as [[|c t]|] eqn:Ht.
  - eexists _, _. split; [done|]. eapply scan_stop; eauto.
    intros [_ (c & t & ?)]. congruence.
  - assert (content res) as Hc by (split; eauto).
    destruct (strptime date_str) as [d|] eqn:Hdate.
    + cbv zeta.
      match goal with |- context [loop ps ?rs ?s] =>
        destruct (IH rs s) as (out & evs & E & Hs) end.
      eexists out, _. split.
      * rewrite E. rewrite <- !replay_app. reflexivity.
      * eapply scan_page; eauto.
    + eexists _, _. split; [done|]. eapply scan_bad_date; eauto.
  - eexists _, _. split; [done|]. eapply scan_stop; eauto.
    intros [_ (c & t & ?)]. congruence.
Qed.

End loop_facts.

(** ** The partition of the issue list *)

Section partition_facts.
Import Anno.
Context {A : Type}.
Implicit Types (df : list A) (l : list (nat * A)).

Lemma classes_out (f : nat * A → nat) x l a n :
  f x < a →
  (λ j, filter (λ y, f y = j) (x :: l)) <$> seq a n
    = (λ j, filter (λ y, f y = j) l) <$> seq a n.
Proof.
  intros Hx. apply list_fmap_ext. intros i j Hj.
  apply lookup_seq in Hj as [-> _]. rewrite filter_cons_False; [done|lia].
Qed.

Lemma classes_cons (f : nat * A → nat) x l a n :
  a ≤ f x < a + n →
  concat ((λ j, filter (λ y, f y = j) (x :: l)) <$> seq a n)
    ≡ₚ x :: concat ((λ j, filter (λ y, f y = j) l) <$> seq a n).
Proof.
  revert a. induction n as [|n IH]; intros a Hx; [lia|].
  simpl. destruct (decide (f x = a)) as [E|E].
  - rewrite filter_cons_True by done. rewrite classes_out by lia. done.
  - rewrite filter_cons_False by done. rewrite IH by lia.
    by rewrite Permutation_middle.
Qed.

Lemma classes_perm (f : nat * A → nat) l a n :
  (∀ x, x ∈ l → a ≤ f x < a + n) →
  concat ((λ j, filter (λ y, f y = j) l) <$> seq a n) ≡ₚ l.
Proof.
  induction l as [|x l IH]; intros Hl.
  - induction (seq a n) as [|j js IHj]; [done|]. simpl. exact IHj.
  - rewrite classes_cons by (apply Hl; left).
    rewrite IH; [done|]. intros y Hy. apply Hl. by right.
Qed.

Lemma elem_of_partition w N df i x :
  (i, x) ∈ partition w N df ↔ df !! i = Some x ∧ (Z.of_nat i `mod` N = w - 1)%Z.
Proof.
  unfold partition. rewrite list_elem_of_filter, elem_of_lookup_imap. simpl. split.
  - intros [Hm (j & y & [= -> ->] & Hl)]. done.
  - intros [Hl Hm]. split; [done|]. by exists i, x.
Qed.

(** C3: for a worker count [N ≥ 1] and the worker ids [1 .. N], the
    rule [row_index mod total_workers == worker_id - 1] gives every row
    of the issue list to exactly one worker: each row is in the
    partition of one worker id and of no other, a partition holds rows
    of the list only, and the [N] partitions put together are the whole
    list, each row once. *)
Theorem partition_exactly_one_worker df (N : Z) :
  (1 ≤ N)%Z →
  (∀ i x, df !! i = Some x →
     ∃ w, (1 ≤ w ≤ N)%Z ∧ (i, x) ∈ partition w N df ∧
          ∀ w', (i, x) ∈ partition w' N df → w' = w) ∧
  (∀ w i x, (i, x) ∈ partition w N df → df !! i = Some x) ∧
  concat ((λ w, partition (Z.of_nat w) N df) <$> seq 1 (Z.to_nat N)) ≡ₚ imap pair df.
Proof.
  intros HN. split; [|split].
  - intros i x Hl. exists (Z.of_nat i `mod` N + 1)%Z.
    pose proof (Z.mod_pos_bound (Z.of_nat i) N ltac:(lia)).
    split; [lia|]. split.
    + apply elem_of_partition. split; [done|lia].
    + intros w' [_ Hw']%elem_of_partition. lia.
  - intros w i x [Hl _]%elem_of_partition. done.
  - set (f := λ ir : nat * A, S (Z.to_nat (Z.of_nat ir.1 `mod` N))).
    trans (concat ((λ j, filter (λ y, f y = j) (imap pair df)) <$> seq 1 (Z.to_nat N)));
      [|apply classes_perm].
    + apply reflexive_eq. f_equal. apply list_fmap_ext. intros k j Hj.
      apply lookup_seq in Hj as [-> _]. unfold partition.
      apply list_filter_iff. intros [i x]. unfold f. simpl.
      pose proof (Z.mod_pos_bound (Z.of_nat i) N ltac:(lia)). lia.
    + intros [i x] _. unfold f. simpl.
      pose proof (Z.mod_pos_bound (Z.of_nat i) N ltac:(lia)). lia.
Qed.

(** The twelve processes of [run_all_workers] are the case [N = 12]. *)
Lemma run_all_workers_args : run_all_workers = (λ w, (Z.of_nat w, 12%Z)) <$> seq 1 (Z.to_nat 12).
Proof. reflexivity. Qed.

End partition_facts.

Lemma partition_exactly_one_worker_witness :
  (1 ≤ 12)%Z ∧
  concat ((λ w, Anno.partition (Z.of_nat w) 12 ["a"; "b"; "c"]) <$> seq 1 (Z.to_nat 12))
    ≡ₚ imap pair ["a"; "b"; "c"].
Proof.
  split; [lia|].
  exact (proj2 (proj2 (partition_exactly_one_worker ["a"; "b"; "c"] 12 ltac:(lia)))).
Defined.

(** ** The fetcher: status codes, bodies, the delay *)

Section fetcher_claims.
Import Text Anno Anno.Http Spec.
Variable session_get : list event → string → outcome response.
Implicit Types (σ : state) (r : response).

(** C4, at the failing input: a response with status 403. The
    [PermissionError] raised for it is caught by the [except Exception]
    of [scrape_page] itself, so the caller gets the result
    [(None, "error")] of a transient error and no exception; [scrape_page]
    raises nothing at all, whatever the response. *)
Theorem status_403_reaches_no_caller aid date_str p σ r :
  session_get (trace σ) (url aid date_str p) = Return r →
  status_code r = 403%Z →
  (scrape_page session_get aid date_str p σ).1 = Return (None, Some "error") ∧
  Print (FehlerBeiSeite p (PermissionError "403 Forbidden"))
    ∈ trace (scrape_page session_get aid date_str p σ).2 ∧
  ∀ σ0 e, (scrape_page session_get aid date_str p σ0).1 ≠ Raise e.
Proof.
  intros H E. rewrite (scrape_page_403 _ _ _ _ _ _ H E). simpl.
  split; [done|]. split.
  - rewrite !elem_of_app. right. by left.
  - intros σ0 e. destruct (scrape_page_run session_get aid date_str p σ0) as (res & tl & -> & _).
    done.
Qed.

(** C5: the body of a 2xx response. When the trimmed body has the shape
    of the placeholder, the result is [(None, "invalid_index")]; otherwise
    the text up to the first "]" and the white space after it are removed
    and the rest is trimmed: an empty rest gives [(None, "no_content")], any
    other rest is returned as the content. The body
    "[ 2021-05-04 - 20210504 - Seite 1 ] Hello world" gives "Hello world". *)
Theorem body_classification aid date_str p σ r :
  session_get (trace σ) (url aid date_str p) = Return r →
  (200 ≤ status_code r < 300)%Z →
  let res := (scrape_page session_get aid date_str p σ).1 in
  let rest := strip (strip_header (Http.text r)) in
  (placeholder (strip (Http.text r)) → res = Return (None, Some "invalid_index")) ∧
  (¬ placeholder (strip (Http.text r)) → rest = "" → res = Return (None, Some "no_content")) ∧
  (¬ placeholder (strip (Http.text r)) → rest ≠ "" → res = Return (Some rest, None)) ∧
  (Http.text r = "[ 2021-05-04 - 20210504 - Seite 1 ] Hello world" →
   res = Return (Some "Hello world", None)).
Proof.
  intros H E res rest. unfold res.
  rewrite (scrape_page_body _ _ _ _ _ _ H) by lia. simpl.
  rewrite HEADER_sub. fold rest.
  destruct (fullmatch PLACEHOLDER (strip (Http.text r))) eqn:Hm.
  - apply PLACEHOLDER_shape in Hm. repeat split; try done.
    intros Hb. rewrite Hb in Hm. apply PLACEHOLDER_shape in Hm. by vm_compute in Hm.
  - assert (¬ placeholder (strip (Http.text r))) as Hn.
    { intros Hp%PLACEHOLDER_shape. congruence. }
    repeat split; try done.
    + intros _ ->. done.
    + intros _ Hr. by destruct rest.
    + intros Hb. unfold rest. rewrite Hb. by vm_compute.
Qed.

(** C6, as the code has it: each call issues one request; when the
    request gives a response, of whatever status, one delay follows it
    directly and nothing but console output comes after; when the
    request itself raises, there is no delay. *)
Theorem delay_follows_response aid date_str p σ :
  ∃ res tl,
    scrape_page session_get aid date_str p σ
      = (Return res, replay σ (Get aid date_str p :: tl)) ∧
    gets tl = [] ∧
    match session_get (trace σ) (url aid date_str p) with
    | Return _ => ∃ tl', tl = Sleep :: tl' ∧ sleeps tl' = []
    | Raise _ => sleeps tl = []
    end.
Proof.
  destruct (session_get (trace σ) (url aid date_str p)) as [r|e] eqn:H.
  - destruct (decide (status_code r = 403%Z)) as [E1|E1].
    { eexists _, _. split; [by eapply scrape_page_403|]. split; [done|]. by eexists. }
    destruct (decide (status_code r = 500%Z)) as [E2|E2].
    { eexists _, _. split; [by eapply scrape_page_500|]. split; [done|]. by eexists. }
    destruct (decide (400 ≤ status_code r < 600)%Z) as [E3|E3].
    { eexists _, _. split; [by eapply scrape_page_http_error|]. split; [done|]. by eexists. }
    eexists _, _. split; [by eapply scrape_page_body|]. split; [done|]. by eexists.
  - eexists _, _. split; [by eapply scrape_page_raise|]. done.
Qed.

End fetcher_claims.

Section fetcher_examples.
Import Text Anno Anno.Http Spec.

Lemma status_403_reaches_no_caller_witness :
  let session_get := λ _ _, Return {| status_code := 403; Http.text := "Forbidden" |} in
  (scrape_page session_get "wrz" "20210504" 1 (boot None None)).1
    = Return (None, Some "error").
Proof.
  intros session_get.
  apply (status_403_reaches_no_caller session_get "wrz" "20210504" 1 (boot None None)
           {| status_code := 403; Http.text := "Forbidden" |}); reflexivity.
Defined.

Lemma body_classification_witness :
  let r := {| status_code := 200;
              Http.text := "[ 2021-05-04 - 20210504 - Seite 1 ] Hello world" |} in
  (scrape_page (λ _ _, Return r) "wrz" "20210504" 1 (boot None None)).1
    = Return (Some "Hello world", None).
Proof.
  intros r.
  apply (body_classification (λ _ _, Return r) "wrz" "20210504" 1 (boot None None) r);
    [reflexivity | simpl; lia | reflexivity].
Defined.

(** C6 as stated fails: with a response the delay comes after the
    request, and when the request raises there is no delay at all. *)
Lemma delay_not_before_request :
  ¬ delay_before_request
      (trace (scrape_page (λ _ _, Return {| status_code := 200; Http.text := "[x] y" |})
                "wrz" "20210504" 1 (boot None None)).2) ∧
  sleeps (trace (scrape_page (λ _ _, Raise RequestException)
                   "wrz" "20210504" 1 (boot None None)).2) = [].
Proof.
  split; [|reflexivity].
  intros (evs1 & evs2 & a & d & p & E & Hin). vm_compute in E.
  destruct evs1 as [|e1 [|e2 [|e3 evs1]]]; simplify_eq/=.
  by apply elem_of_nil in Hin.
Qed.

End fetcher_examples.

(** ** Logs and the states they lead to *)

Section replay_facts.
Import Anno Spec.
Implicit Types (σ : state) (evs : list event) (P : state → Prop).

Lemma trace_apply σ e : trace (apply σ e) = trace σ ++ [e].
Proof. by destruct e. Qed.

Lemma trace_replay σ evs : trace (replay σ evs) = trace σ ++ evs.
Proof.
  revert σ. induction evs as [|e evs IH]; intros σ; simpl.
  - by rewrite app_nil_r.
  - rewrite IH, trace_apply. by rewrite <- app_assoc.
Qed.

Lemma same_store_refl σ : same_store σ σ.
Proof. done. Qed.

Lemma same_store_trans σ1 σ2 σ3 : same_store σ1 σ2 → same_store σ2 σ3 → same_store σ1 σ3.
Proof. unfold same_store. intros (-> & -> & ->) (-> & -> & ->). done. Qed.

Lemma replay_quiet σ evs : Forall quiet evs → same_store σ (replay σ evs).
Proof.
  intros H. revert σ. induction H as [|e evs He _ IH]; intros σ; [done|].
  simpl. eapply same_store_trans; [|apply IH]. by destruct e.
Qed.

Lemma replay_fetch σ a d p tl :
  Forall quiet tl → same_store σ (replay σ (Get a d p :: tl)).
Proof. intros H. simpl. eapply same_store_trans; [|by apply replay_quiet]. done. Qed.

Lemma gets_app evs1 evs2 : gets (evs1 ++ evs2) = gets evs1 ++ gets evs2.
Proof. apply omap_app. Qed.
Lemma rows_app evs1 evs2 : rows (evs1 ++ evs2) = rows evs1 ++ rows evs2.
Proof. apply omap_app. Qed.
Lemma appends_app evs1 evs2 : appends (evs1 ++ evs2) = appends evs1 ++ appends evs2.
Proof. apply omap_app. Qed.

Lemma quiet_gets tl : Forall quiet tl → gets tl = [].
Proof. induction 1 as [|[] ?]; done. Qed.
Lemma quiet_rows tl : Forall quiet tl → rows tl = [].
Proof. induction 1 as [|[] ?]; done. Qed.
Lemma quiet_appends tl : Forall quiet tl → appends tl = [].
Proof. induction 1 as [|[] ?]; done. Qed.
Lemma quiet_dumps tl : Forall quiet tl → dumps tl = [].
Proof. induction 1 as [|[] ?]; done. Qed.

Lemma fetch_appends a d p tl : Forall quiet tl → appends (Get a d p :: tl) = [].
Proof. apply (quiet_appends tl). Qed.
Lemma fetch_rows a d p tl : Forall quiet tl → rows (Get a d p :: tl) = [].
Proof. apply (quiet_rows tl). Qed.

Lemma always_nil P σ : P σ → always P σ [].
Proof. intros H evs1 evs2 E. symmetry in E. apply app_eq_nil in E as [-> _]. done. Qed.

Lemma always_cons P σ e evs : P σ → always P (apply σ e) evs → always P σ (e :: evs).
Proof.
  intros H0 H evs1 evs2 E. destruct evs1 as [|e' evs1]; [done|].
  simplify_eq/=. by eapply H.
Qed.

Lemma always_app P σ evs1 evs2 :
  always P σ evs1 → always P (replay σ evs1) evs2 → always P σ (evs1 ++ evs2).
Proof.
  intros H1 H2 l1 l2 E. apply app_eq_inv in E as [(k & -> & ->)|(k & -> & ->)].
  - by eapply H1.
  - rewrite replay_app. by eapply H2.
Qed.

Lemma always_start P σ evs : always P σ evs → P σ.
Proof. intros H. by apply (H [] evs). Qed.

Lemma always_end P σ evs : always P σ evs → P (replay σ evs).
Proof. intros H. apply (H evs []). by rewrite app_nil_r. Qed.

(** A property of the store alone is not touched by a fetch. *)
Lemma always_fetch P σ a d p tl :
  (∀ σ1 σ2, same_store σ1 σ2 → P σ1 → P σ2) →
  P σ → Forall quiet tl → always P σ (Get a d p :: tl).
Proof.
  intros HP H0 Hq l1 l2 E. apply (HP σ); [|done].
  destruct l1 as [|e l1]; [done|]. simplify_eq/=.
  apply Forall_app in Hq as [Hq _]. eapply same_store_trans; [|by apply replay_quiet]. done.
Qed.

Lemma split_fetch (e1 e2 tl rest : list event) a d p a0 d0 p0 :
  e1 ++ Get a d p :: e2 = (Get a0 d0 p0 :: tl) ++ rest →
  Forall quiet tl →
  (e1 = [] ∧ a = a0 ∧ d = d0 ∧ p = p0 ∧ e2 = tl ++ rest) ∨
  (∃ e1', e1 = (Get a0 d0 p0 :: tl) ++ e1' ∧ rest = e1' ++ Get a d p :: e2).
Proof.
  intros E Hq. destruct e1 as [|e e1]; simplify_eq/=; [by left|]. right.
  revert e1 H0. induction Hq as [|t tl Ht _ IH]; intros e1 E; simpl in *.
  - by exists e1.
  - destruct e1 as [|e e1]; simplify_eq/=; [done|].
    destruct (IH e1 H0) as (e1' & [= ->] & ->). by exists e1'.
Qed.

Lemma sublist_StronglySorted {A} (R : relation A) (l1 l2 : list A) :
  l1 `sublist_of` l2 → StronglySorted R l2 → StronglySorted R l1.
Proof.
  induction 1 as [|x l1 l2 Hs IH|x l1 l2 Hs IH]; intros H2; [done|..].
  - apply StronglySorted_inv in H2 as [H2 Hx]. constructor; [by apply IH|].
    apply Forall_forall. intros y Hy. eapply Forall_forall in Hx; [done|].
    by eapply elem_of_sublist.
  - apply StronglySorted_inv in H2 as [H2 _]. by apply IH.
Qed.

Lemma StronglySorted_seq a n : StronglySorted lt (seq a n).
Proof.
  revert a. induction n as [|n IH]; intros a; simpl; constructor; [done|].
  apply Forall_forall. intros x Hx%elem_of_seq. lia.
Qed.

End replay_facts.

(** ** One call of [scrape_issue] *)

Section issue_facts.
Import Text Anno Anno.Http Spec.
Variable session_get : list event → string → outcome response.
Variable strptime : string → option (Z * Z * Z).
Variables (aid title date_str : string) (worker_id : Z).
Implicit Types (σ : state) (ps : list nat) (results : list record) (aliased : bool).

Local Abbreviation key := (issue_key aid date_str).
Local Abbreviation scan := (Spec.scan session_get strptime aid title date_str).
Local Abbreviation issue := (scrape_issue session_get strptime aid title date_str worker_id).

Lemma scrape_issue_scan σ max_pages :
  ∃ out evs, issue max_pages σ = (out, replay σ evs) ∧
    scan (bool_decide (is_Some (progress σ !! key))) (seq 1 max_pages) [] σ out evs.
Proof. apply scrape_loop_scan. Qed.

Lemma scan_gets aliased ps results σ out evs :
  scan aliased ps results σ out evs → gets evs `sublist_of` ps.
Proof.
  induction 1 as [| |p ps results σ res tl _ _ Hq _|p ps results σ res tl _ _ Hq _ _
                  |p ps results σ res tl d t r σ1 out evs _ _ Hq _ _ _ _ _ _ IH].
  - done.
  - by constructor.
  - simpl. rewrite (quiet_gets tl Hq). constructor. apply sublist_nil_l.
  - simpl. rewrite (quiet_gets tl Hq). constructor. apply sublist_nil_l.
  - rewrite !gets_app. change (gets (Get aid date_str p :: tl)) with (p :: gets tl).
    rewrite (quiet_gets tl Hq). simpl. by constructor.
Qed.

Lemma scan_outcome aliased ps results σ out evs :
  scan aliased ps results σ out evs → (∃ rs, out = Return rs) ∨ out = Raise ValueError.
Proof. induction 1; eauto. Qed.

(** No [PermissionError] leaves [scrape_issue], whatever the remote
    answers: the only exception of a call is the [ValueError] of
    [strptime]. *)
Lemma scrape_issue_raises_ValueError_only σ max_pages e :
  (issue max_pages σ).1 = Raise e → e = ValueError.
Proof.
  destruct (scrape_issue_scan σ max_pages) as (out & evs & -> & Hs). simpl.
  apply scan_outcome in Hs as [[rs ->]| ->]; congruence.
Qed.

Lemma scan_stops aliased ps results σ out evs :
  scan aliased ps results σ out evs →
  ∀ e1 a d p e2 res,
    evs = e1 ++ Get a d p :: e2 →
    (scrape_page session_get a d p (replay σ e1)).1 = Return res →
    ¬ content res →
    gets e2 = [] ∧ rows e2 = [].
Proof.
  induction 1 as [| |p ps results σ res tl _ Hp Hq _|p ps results σ res tl _ Hp Hq _ _
                  |p ps results σ res tl d t r σ1 out evs _ Hp Hq Hc _ _ _ -> _ IH];
    intros e1 a' d' p' e2 res' E Hres' Hn.
  - by destruct e1.
  - eauto.
  - symmetry in E. rewrite <- (app_nil_r (_ :: tl)) in E.
    apply split_fetch in E; [|done].
    destruct E as [(-> & -> & -> & -> & ->)|(e1' & -> & E)]; [|by destruct e1'].
    rewrite app_nil_r. by rewrite quiet_gets, quiet_rows.
  - symmetry in E. rewrite <- (app_nil_r (_ :: tl)) in E.
    apply split_fetch in E; [|done].
    destruct E as [(-> & -> & -> & -> & ->)|(e1' & -> & E)]; [|by destruct e1'].
    rewrite app_nil_r. by rewrite quiet_gets, quiet_rows.
  - symmetry in E.
    apply split_fetch in E; [|done].
    destruct E as [(-> & -> & -> & -> & ->)|(e1' & -> & E)].
    + simpl in Hres'. rewrite Hp in Hres'. simpl in Hres'. congruence.
    + destruct e1' as [|? [|? [|? e1']]]; simplify_eq/=.
      eapply (IH e1'); [done| |done].
      rewrite <- Hres'. f_equal. f_equal.
      rewrite !replay_app. done.
Qed.

Lemma unrecorded_nil max_pages : unrecorded [] max_pages = seq 1 max_pages.
Proof.
  unfold unrecorded. generalize 1. induction max_pages as [|n IH]; intros lo; [done|].
  simpl seq. rewrite filter_cons_True by apply not_elem_of_nil. by rewrite IH.
Qed.

(** The requests of the page loop are the pages left that no list of
    done pages holds, from the first one on, without a gap; the loop ends
    before their last one only after a request that gave no content, or
    with the [ValueError] of [strptime]. *)
Lemma scan_requests aliased ps results σ out evs (done0 : list string) :
  scan aliased ps results σ out evs →
  NoDup ps →
  (∀ q, q ∈ ps → pretty q ∈ done_pages aliased key σ ↔ pretty q ∈ done0) →
  gets evs `prefix_of` filter (λ q, pretty q ∉ done0) ps ∧
  (∀ a d p, Get a d p ∈ evs → a = aid ∧ d = date_str) ∧
  ((gets evs = filter (λ q, pretty q ∉ done0) ps ∧ ∃ rs, out = Return rs) ∨
   ∃ e1 p tl res,
     evs = e1 ++ Get aid date_str p :: tl ∧ Forall quiet tl ∧
     (scrape_page session_get aid date_str p (replay σ e1)).1 = Return res ∧
     ((¬ content res ∧ ∃ rs, out = Return rs) ∨
      (content res ∧ strptime date_str = None ∧ out = Raise ValueError))).
Proof.
  induction 1 as [results σ|p ps results σ out evs Hd Hs IH
                  |p ps results σ res tl Hd Hp Hq Hn|p ps results σ res tl Hd Hp Hq Hc Hdate
                  |p ps results σ res tl d t r σ1 out evs Hd Hp Hq Hc Ht Hdate Hr Hσ1 Hs IH];
    intros Hnd Hdone.
  - split; [done|]. split; [intros a d p Hin; by apply elem_of_nil in Hin|].
    left. split; [done|]. by exists results.
  - apply NoDup_cons in Hnd as [Hp Hnd].
    rewrite filter_cons_False.
    2:{ intros Hno. apply Hno. apply Hdone; [by left|done]. }
    apply IH; [done|]. intros q Hq. apply Hdone. by right.
  - rewrite filter_cons_True.
    2:{ intros Hin. apply Hd. apply Hdone; [by left|done]. }
    simpl gets. rewrite (quiet_gets tl Hq). split; [apply prefix_cons, prefix_nil|].
    split.
    { intros a d' p' Hin. apply elem_of_cons in Hin as [[= -> -> ->]|Hin]; [done|].
      eapply Forall_forall in Hq; [|exact Hin]. done. }
    right. exists [], p, tl, res. split; [done|]. split; [done|].
    split; [simpl; by rewrite Hp|]. left. split; [done|]. by exists results.
  - rewrite filter_cons_True.
    2:{ intros Hin. apply Hd. apply Hdone; [by left|done]. }
    simpl gets. rewrite (quiet_gets tl Hq). split; [apply prefix_cons, prefix_nil|].
    split.
    { intros a d' p' Hin. apply elem_of_cons in Hin as [[= -> -> ->]|Hin]; [done|].
      eapply Forall_forall in Hq; [|exact Hin]. done. }
    right. exists [], p, tl, res. split; [done|]. split; [done|].
    split; [simpl; by rewrite Hp|]. by right.
  - apply NoDup_cons in Hnd as [Hnp Hnd].
    rewrite filter_cons_True.
    2:{ intros Hin. apply Hd. apply Hdone; [by left|done]. }
    destruct IH as (IH1 & IH2 & IH3); [done| |].
    { intros q Hq'. rewrite <- (Hdone q) by (by right).
      unfold done_pages. destruct aliased; [|done]. simpl.
      rewrite lookup_insert_eq. simpl. rewrite Hσ1.
      destruct (replay_fetch σ aid date_str p tl Hq) as (<- & _).
      rewrite elem_of_app, list_elem_of_singleton. split; [|by left].
      intros [H|H]; [done|]. apply (inj pretty) in H as ->. done. }
    rewrite !gets_app. change (gets (Get aid date_str p :: tl)) with (p :: gets tl).
    rewrite (quiet_gets tl Hq).
    change (gets (_ :: _ :: _ :: evs)) with (gets evs).
    split; [by apply prefix_cons|]. split.
    { intros a d' p' Hin. apply elem_of_app in Hin as [Hin|Hin].
      - apply elem_of_cons in Hin as [[= -> -> ->]|Hin]; [done|].
        eapply Forall_forall in Hq; [|exact Hin]. done.
      - apply elem_of_cons in Hin as [?|Hin]; [done|].
        apply elem_of_cons in Hin as [?|Hin]; [done|].
        apply elem_of_cons in Hin as [?|Hin]; [done|]. by eapply IH2. }
    destruct IH3 as [[-> Hret]|(e1 & p' & tl' & res' & -> & Hq' & Hres' & Hcase)].
    + left. by split.
    + right.
      exists ((Get aid date_str p :: tl)
              ++ [ToCsv (bool_decide (output_file σ1 = None)) r;
                  Append (issue_key aid date_str) (pretty p);
                  JsonDump (<[issue_key aid date_str :=
                               default [] (progress σ1 !! issue_key aid date_str)
                               ++ [pretty p]]> (progress σ1))]
              ++ e1), p', tl', res'.
      split; [by rewrite <- !app_assoc|]. split; [done|]. split; [|done].
      rewrite <- Hres'. f_equal. f_equal. rewrite !replay_app. by rewrite Hσ1.
Qed.

(** C7: one call of [scrape_issue] returns, with a result or with the
    [ValueError] of [strptime]. Its requests are all for the issue, and
    their pages are the pages from 1 to [max_pages] that [progress] does
    not hold for the issue at the call, in increasing order from the first
    of them on and without a gap: with nothing recorded the first
    request is the one for page 1. The scan ends before the last such
    page only after a request whose result is not content (empty page,
    placeholder, status 500, or the "error" of any other failure), or
    with the [ValueError] at a page with content; after a request that
    gave content and a date that [strptime] reads it goes on to the next
    page. The pages lie between 1 and [max_pages], so there are at most
    [max_pages] requests ([run_worker] calls with the default, 100).
    After a request whose result is not content no further page is
    requested and no row is written. *)
Theorem scrape_issue_scans_in_order σ max_pages :
  ∃ out evs,
    issue max_pages σ = (out, replay σ evs) ∧
    ((∃ rs, out = Return rs) ∨ out = Raise ValueError) ∧
    (∀ a d p, Get a d p ∈ evs → a = aid ∧ d = date_str) ∧
    gets evs `prefix_of` unrecorded (default [] (progress σ !! key)) max_pages ∧
    head (gets evs) = head (unrecorded (default [] (progress σ !! key)) max_pages) ∧
    (progress σ !! key = None → 0 < max_pages → head (gets evs) = Some 1) ∧
    ((gets evs = unrecorded (default [] (progress σ !! key)) max_pages ∧
      ∃ rs, out = Return rs) ∨
     ∃ e1 p tl res,
       evs = e1 ++ Get aid date_str p :: tl ∧ Forall quiet tl ∧
       (scrape_page session_get aid date_str p (replay σ e1)).1 = Return res ∧
       ((¬ content res ∧ ∃ rs, out = Return rs) ∨
        (content res ∧ strptime date_str = None ∧ out = Raise ValueError))) ∧
    StronglySorted lt (gets evs) ∧
    Forall (λ p, 1 ≤ p ≤ max_pages) (gets evs) ∧
    length (gets evs) ≤ max_pages ∧
    (∀ e1 a d p e2 res,
       evs = e1 ++ Get a d p :: e2 →
       (scrape_page session_get a d p (replay σ e1)).1 = Return res →
       ¬ content res →
       gets e2 = [] ∧ rows e2 = []).
Proof.
  destruct (scrape_issue_scan σ max_pages) as (out & evs & E & Hs).
  exists out, evs. split; [done|].
  pose proof (scan_gets _ _ _ _ _ _ Hs) as Hsub.
  destruct (scan_requests _ _ _ _ _ _ (default [] (progress σ !! key)) Hs)
    as (Hpre & Hargs & Hend).
  { apply NoDup_seq. }
  { intros q _. unfold done_pages. by destruct (progress σ !! key). }
  fold (unrecorded (default [] (progress σ !! key)) max_pages) in Hpre, Hend.
  assert (head (gets evs) = head (unrecorded (default [] (progress σ !! key)) max_pages))
    as Hhead.
  { destruct Hend as [[-> _]|(e1 & p & tl & res & -> & _)]; [done|].
    destruct Hpre as [k Hk]. rewrite Hk. rewrite gets_app.
    change (gets (Get aid date_str p :: tl)) with (p :: gets tl).
    by destruct (gets e1). }
  split; [by eapply scan_outcome|]. split; [done|]. split; [done|]. split; [done|].
  split.
  { intros Hnone Hpos. rewrite Hhead, Hnone. simpl. rewrite unrecorded_nil.
    destruct max_pages; [lia|done]. }
  split; [done|].
  repeat split.
  - eapply sublist_StronglySorted; [done|]. apply StronglySorted_seq.
  - apply Forall_forall. intros p Hp.
    eapply elem_of_sublist in Hp; [|done]. apply elem_of_seq in Hp. lia.
  - apply sublist_length in Hsub. by rewrite length_seq in Hsub.
  - eapply scan_stops; eauto.
  - eapply scan_stops; eauto.
Qed.

End issue_facts.

(** ** Resuming an issue that is already complete *)

Section resume_facts.
Import Text Anno Anno.Http Spec.
Variable session_get : list event → string → outcome response.
Variable strptime : string → option (Z * Z * Z).
Variables (aid title date_str : string) (worker_id : Z).
Implicit Types (σ : state) (ps : list nat) (results : list record).

Local Abbreviation key := (issue_key aid date_str).
Local Abbreviation issue := (scrape_issue session_get strptime aid title date_str worker_id).

Lemma done_pages_at_call σ :
  done_pages (bool_decide (is_Some (progress σ !! key))) key σ
    = default [] (progress σ !! key).
Proof. unfold done_pages. by destruct (progress σ !! key). Qed.

Lemma scrape_loop_skip_all aliased ps1 ps2 results σ :
  (∀ p, p ∈ ps1 → pretty p ∈ done_pages aliased key σ) →
  scrape_loop session_get strptime aid title date_str worker_id aliased (ps1 ++ ps2) results σ
    = scrape_loop session_get strptime aid title date_str worker_id aliased ps2 results σ.
Proof.
  induction ps1 as [|p ps1 IH]; intros H; [done|].
  rewrite <- app_comm_cons. rewrite scrape_loop_skip by (apply H; left).
  apply IH. intros q Hq. apply H. by right.
Qed.

(** C1, as the code has it: when [progress] holds the pages 1 to [k] of
    an issue and not page [k + 1], and the fetch of page [k + 1] gives no
    content, a rerun of [scrape_issue] issues exactly one request, the
    one for page [k + 1] (none when [k] has reached [max_pages]); it
    writes no row, leaves [progress] and both files as they are, and
    returns no result row. *)
Theorem resume_probes_next_page σ max_pages k res :
  (∀ i, 1 ≤ i ≤ k → pretty i ∈ default [] (progress σ !! key)) →
  pretty (S k) ∉ default [] (progress σ !! key) →
  (scrape_page session_get aid date_str (S k) σ).1 = Return res →
  ¬ content res →
  ∃ evs,
    issue max_pages σ = (Return [], replay σ evs) ∧
    gets evs = (if decide (k < max_pages) then [S k] else []) ∧
    rows evs = [] ∧ appends evs = [] ∧ dumps evs = [] ∧
    same_store σ (replay σ evs).
Proof.
  intros Hk Hnext Hres Hn. unfold scrape_issue, bind, get_progress.
  set (aliased := bool_decide (is_Some (progress σ !! key))).
  destruct (decide (k < max_pages)) as [Hlt|Hge].
  - replace (seq 1 max_pages) with (seq 1 k ++ S k :: seq (S (S k)) (max_pages - S k)).
    2:{ replace max_pages with (k + S (max_pages - S k)) at 2 by lia.
        by rewrite seq_app. }
    rewrite scrape_loop_skip_all.
    2:{ intros p Hp%elem_of_seq. unfold aliased. rewrite done_pages_at_call.
        apply Hk. lia. }
    destruct (scrape_page_run session_get aid date_str (S k) σ) as (res' & tl & Hp & Hq).
    assert (res' = res) as -> by (rewrite Hp in Hres; simpl in Hres; congruence).
    erewrite scrape_loop_fetch; [| |done].
    2:{ unfold aliased. by rewrite done_pages_at_call. }
    exists (Get aid date_str (S k) :: tl).
    change (gets (Get aid date_str (S k) :: tl)) with (S k :: gets tl).
    rewrite quiet_gets by done.
    change (rows (Get aid date_str (S k) :: tl)) with (rows tl).
    change (appends (Get aid date_str (S k) :: tl)) with (appends tl).
    change (dumps (Get aid date_str (S k) :: tl)) with (dumps tl).
    rewrite quiet_rows, quiet_appends, quiet_dumps by done.
    split; [|by auto 10 using replay_fetch].
    case_bool_decide; [done|].
    destruct (res.1) as [[|c t]|] eqn:Ht; [done| |done].
    destruct Hn. split; eauto.
  - rewrite <- (app_nil_r (seq 1 max_pages)). rewrite scrape_loop_skip_all.
    2:{ intros p Hp%elem_of_seq. unfold aliased. rewrite done_pages_at_call.
        apply Hk. lia. }
    exists []. auto 10 using same_store_refl.
Qed.

End resume_facts.

Section resume_examples.
Import Text Anno Anno.Http Spec.

(** C1 as stated fails: page 1 of the issue is in [progress] and page 2
    is the placeholder, yet the rerun sends the request for page 2. *)
Lemma resume_sends_a_request :
  let session_get := λ _ _,
    Return {| status_code := 200; Http.text := "[ 2021-05-04 - 20210504 - Seite 2 ]" |} in
  let σ := {| progress := {[ "wrz_20210504" := ["1"] ]};
              output_file := Some [ {| title := "Wiener Zeitung"; aid := "wrz";
                                       year := 2021; month := 5; day := 4;
                                       page := 1; Anno.text := "Hello world" |} ];
              progress_file := Some {[ "wrz_20210504" := ["1"] ]};
              trace := [] |} in
  progress σ !! issue_key "wrz" "20210504" = Some ["1"] ∧
  (scrape_page session_get "wrz" "20210504" 2 σ).1 = Return (None, Some "invalid_index") ∧
  gets (trace (scrape_issue session_get strptime_Ymd "wrz" "Wiener Zeitung" "20210504" 1 100 σ).2)
    = [2].
Proof. repeat split; by vm_compute. Qed.

Lemma resume_probes_next_page_witness :
  let session_get := λ _ _,
    Return {| status_code := 200; Http.text := "[ 2021-05-04 - 20210504 - Seite 2 ]" |} in
  let σ := {| progress := {[ "wrz_20210504" := ["1"] ]};
              output_file := None; progress_file := None; trace := [] |} in
  ∃ evs,
    scrape_issue session_get strptime_Ymd "wrz" "Wiener Zeitung" "20210504" 1 100 σ
      = (Return [], replay σ evs) ∧
    gets evs = [2] ∧ rows evs = [] ∧ appends evs = [] ∧ dumps evs = [] ∧
    same_store σ (replay σ evs).
Proof.
  intros session_get σ.
  apply (resume_probes_next_page session_get strptime_Ymd "wrz" "Wiener Zeitung" "20210504"
           1 σ 100 1 (None, Some "invalid_index")).
  - intros i Hi. assert (i = 1) as -> by lia. vm_compute. left.
  - vm_compute. intros H. apply list_elem_of_singleton in H. discriminate H.
  - reflexivity.
  - intros [H _]. vm_compute in H. apply H. right. right. left.
Defined.

End resume_examples.

(** ** The shape of the progress lists *)

Section contiguous_facts.
Import Text Anno Anno.Http Spec.
Variable session_get : list event → string → outcome response.
Variable strptime : string → option (Z * Z * Z).
Variables (aid title date_str : string) (worker_id : Z).
Implicit Types (σ : state) (ps : list nat) (results : list record) (aliased : bool).

Local Abbreviation key := (issue_key aid date_str).
Local Abbreviation scan := (Spec.scan session_get strptime aid title date_str).
Local Abbreviation issue := (scrape_issue session_get strptime aid title date_str worker_id).

Lemma pages_upto_S k : pages_upto (S k) = pages_upto k ++ [pretty (S k)].
Proof. unfold pages_upto. by rewrite seq_S, fmap_app. Qed.

Lemma elem_of_pages_upto (p k : nat) : pretty p ∈ pages_upto k ↔ 1 ≤ p ≤ k.
Proof.
  unfold pages_upto. rewrite (list_elem_of_fmap_inj pretty), elem_of_seq. lia.
Qed.

Lemma contiguous_insert m k0 k : contiguous m → contiguous (<[k0 := pages_upto k]> m).
Proof.
  intros Hm k' l. rewrite lookup_insert. case_decide; [|by apply Hm].
  intros [= <-]. by exists k.
Qed.

Lemma stored_contiguous_same σ1 σ2 :
  same_store σ1 σ2 → stored_contiguous σ1 → stored_contiguous σ2.
Proof. unfold stored_contiguous. by intros (-> & _ & ->). Qed.

Lemma scan_contiguous aliased ps results σ out evs :
  scan aliased ps results σ out evs →
  ∀ a n k,
    ps = seq a n → 1 ≤ a →
    default [] (progress σ !! key) = pages_upto k →
    a = S k ∨ (a ≤ k ∧ aliased = true) →
    stored_contiguous σ →
    always stored_contiguous σ evs ∧
    ∃ j, appends evs = (λ i, (key, pretty i)) <$> seq (S k) j.
Proof.
  induction 1 as [results σ|p ps results σ out evs Hd _ IH
                  |p ps results σ res tl Hd Hp Hq _|p ps results σ res tl Hd Hp Hq _ _
                  |p ps results σ res tl d t r σ1 out evs Hd Hp Hq Hc _ _ _ -> _ IH];
    intros a n k Hps Ha Hk Hinv HP.
  - split; [by apply always_nil|]. by exists 0.
  - destruct n as [|n]; [done|]. simpl in Hps. injection Hps as -> ->.
    assert (aliased = true ∧ a ≤ k) as [-> Hak].
    { unfold done_pages in Hd. destruct aliased; [|by apply elem_of_nil in Hd].
      rewrite Hk in Hd. apply elem_of_pages_upto in Hd. split; [done|lia]. }
    apply (IH (S a) n k); auto with lia.
  - split; [|exists 0; by rewrite fetch_appends].
    apply always_fetch; [apply stored_contiguous_same|done..].
  - split; [|exists 0; by rewrite fetch_appends].
    apply always_fetch; [apply stored_contiguous_same|done..].
  - destruct n as [|n]; [done|]. simpl in Hps. injection Hps as -> ->.
    assert (a = S k) as ->.
    { destruct Hinv as [?|[Hak ->]]; [done|]. unfold done_pages in Hd.
      rewrite Hk in Hd. exfalso. apply Hd. apply elem_of_pages_upto. lia. }
    set (σ1 := replay σ (Get aid date_str (S k) :: tl)) in *.
    assert (same_store σ σ1) as Hsame by (by apply replay_fetch).
    assert (default [] (progress σ1 !! key) ++ [pretty (S k)] = pages_upto (S k)) as Hnew.
    { destruct Hsame as (<- & _). by rewrite Hk, pages_upto_S. }
    assert (stored_contiguous σ1) as HP1 by (by eapply stored_contiguous_same).
    match type of IH with ∀ a n k, _ → _ → default [] (progress ?s !! _) = _ → _ =>
      destruct (IH (S (S k)) n (S k)) as [IHa [j IHj]]; [done|lia| |by left| |]
    end.
    + simpl. rewrite lookup_insert_eq. simpl. done.
    + split; simpl.
      * rewrite Hnew. apply contiguous_insert, (proj1 HP1).
      * intros m [= <-]. rewrite Hnew. apply contiguous_insert, (proj1 HP1).
    + split.
      * change (Get aid date_str (S k) :: tl ++ ?l) with ((Get aid date_str (S k) :: tl) ++ l).
        apply always_app; [apply always_fetch; [apply stored_contiguous_same|done..]|].
        fold σ1. apply always_cons; [done|].
        apply always_cons; [exact HP1|].
        apply always_cons.
        { split; [|apply HP1]. simpl. rewrite Hnew. apply contiguous_insert, (proj1 HP1). }
        exact IHa.
      * exists (S j). rewrite appends_app, fetch_appends by done. simpl. by rewrite IHj.
Qed.

(** C10: when every list in [progress] and in the checkpoint file is
    ["1" .. "k"] for some [k], it stays so at every point of a call of
    [scrape_issue], for every key, in memory and in the file; the pages
    the call appends under the key of its issue are [k + 1], [k + 2], ...
    in this order, each once, [k] being the number of pages recorded
    before. *)
Theorem progress_stays_contiguous σ max_pages :
  contiguous (progress σ) →
  (∀ m, progress_file σ = Some m → contiguous m) →
  ∃ out evs,
    issue max_pages σ = (out, replay σ evs) ∧
    always (λ σ', contiguous (progress σ') ∧
                  ∀ m, progress_file σ' = Some m → contiguous m) σ evs ∧
    ∃ k j, default [] (progress σ !! key) = pages_upto k ∧
           appends evs = (λ i, (key, pretty i)) <$> seq (S k) j.
Proof.
  intros Hm Hf. destruct (scrape_issue_scan session_get strptime aid title date_str worker_id
                            σ max_pages) as (out & evs & E & Hs).
  exists out, evs. split; [done|].
  assert (∃ k, default [] (progress σ !! key) = pages_upto k) as [k Hk].
  { destruct (progress σ !! key) as [l|] eqn:El; [by apply (Hm key)|by exists 0]. }
  destruct (scan_contiguous _ _ _ _ _ _ Hs 1 max_pages k) as [Ha [j Hj]]; auto.
  - destruct k as [|k]; [by left|right]. split; [lia|].
    apply bool_decide_eq_true. destruct (progress σ !! key); [done|].
    by rewrite pages_upto_S in Hk; destruct (pages_upto k).
  - by split.
  - split; [exact Ha|]. by exists k, j.
Qed.

End contiguous_facts.

(** ** Rows and progress entries *)

Section consistency_facts.
Import Text Anno Anno.Http Spec.
Variable session_get : list event → string → outcome response.
Variable strptime : string → option (Z * Z * Z).
Variables (aid title date_str : string) (worker_id : Z).
Implicit Types (σ : state) (ps : list nat) (results : list record) (aliased : bool).

Local Abbreviation key := (issue_key aid date_str).
Local Abbreviation scan := (Spec.scan session_get strptime aid title date_str).
Local Abbreviation issue := (scrape_issue session_get strptime aid title date_str worker_id).

Lemma consistent_same a d k σ1 σ2 :
  same_store σ1 σ2 → consistent a d k σ1 → consistent a d k σ2.
Proof.
  unfold consistent, recorded, rows_of. by intros (-> & -> & ->).
Qed.

Lemma consistent1_same a d k σ1 σ2 :
  same_store σ1 σ2 → consistent1 a d k σ1 → consistent1 a d k σ2.
Proof.
  unfold consistent1, recorded, rows_of. by intros (-> & -> & ->).
Qed.

Lemma one_to_one_same a d k σ1 σ2 :
  same_store σ1 σ2 → one_to_one a d k σ1 → one_to_one a d k σ2.
Proof.
  unfold one_to_one, rows_of. by intros (-> & -> & ->).
Qed.

Lemma rows_of_to_csv a d q σ h r :
  rows_of a d q (apply σ (ToCsv h r))
    = rows_of a d q σ ++ (if decide (is_row_of a d q r) then [r] else []).
Proof.
  unfold rows_of. simpl. rewrite filter_app. f_equal.
Qed.

Lemma write_order_fetch a d p tl evs :
  Forall quiet tl → write_order aid key evs →
  write_order aid key ((Get a d p :: tl) ++ evs).
Proof.
  intros Hq He. simpl. apply write_order_other; [done|].
  induction Hq as [|e tl He' _ IH]; [done|].
  simpl. apply write_order_other; [by destruct e|done].
Qed.

Lemma scan_write_order aliased ps results σ out evs :
  scan aliased ps results σ out evs → write_order aid key evs.
Proof.
  induction 1 as [| |p ps results σ res tl _ _ Hq _|p ps results σ res tl _ _ Hq _ _
                  |p ps results σ res tl d t r σ1 out evs _ _ Hq _ _ _ Hr _ _ IH].
  - constructor.
  - done.
  - rewrite <- (app_nil_r (_ :: tl)). apply write_order_fetch; [done|constructor].
  - rewrite <- (app_nil_r (_ :: tl)). apply write_order_fetch; [done|constructor].
  - apply write_order_fetch; [done|]. simpl.
    replace p with (page r) by (by rewrite Hr).
    eapply write_order_page; [by rewrite Hr| |done].
    rewrite Hr. simpl. apply lookup_insert_eq.
Qed.

(** Every recorded page keeps a row, from any state in which it has one. *)
Lemma scan_consistent aliased ps results σ out evs aid' d' key' :
  scan aliased ps results σ out evs →
  (key' = key → aid' = aid ∧ ∀ d, strptime date_str = Some d → d = d') →
  consistent aid' d' key' σ →
  always (consistent aid' d' key') σ evs.
Proof.
  intros Hs Hkey. induction Hs
    as [| |p ps results σ res tl _ _ Hq _|p ps results σ res tl _ _ Hq _ _
        |p ps results σ res tl d t r σ1 out evs _ _ Hq _ _ Hd Hr -> _ IH]; intros HP.
  - by apply always_nil.
  - auto.
  - apply always_fetch; [apply consistent_same|done..].
  - apply always_fetch; [apply consistent_same|done..].
  - set (σ1 := replay σ (Get aid date_str p :: tl)) in *.
    assert (consistent aid' d' key' σ1) as HP1.
    { eapply consistent_same; [|done]. by apply replay_fetch. }
    set (σ2 := apply σ1 (ToCsv (bool_decide (output_file σ1 = None)) r)).
    assert (consistent aid' d' key' σ2) as HP2.
    { intros q Hq'. unfold σ2. rewrite rows_of_to_csv. specialize (HP1 q Hq').
      by destruct (rows_of aid' d' q σ1). }
    set (σ3 := apply σ2 (Append key (pretty p))).
    assert (consistent aid' d' key' σ3) as HP3.
    { intros q Hq'. unfold recorded in Hq'. simpl in Hq'.
      change (rows_of aid' d' q σ3) with (rows_of aid' d' q σ2).
      destruct (decide (key' = key)) as [Ek|Ek].
      - destruct (Hkey Ek) as [-> Hd']. rewrite Ek, lookup_insert_eq in Hq'. simpl in Hq'.
        rewrite <- app_assoc, elem_of_app in Hq'.
        destruct Hq' as [Hq'|Hq'].
        + apply HP2. rewrite Ek. unfold recorded. simpl. rewrite elem_of_app. by left.
        + apply elem_of_cons in Hq' as [->|Hq'].
          * unfold σ2. rewrite rows_of_to_csv. rewrite decide_True.
            { by destruct (rows_of aid d' (pretty p) σ1). }
            rewrite Hr. split; [done|]. split; [|done]. simpl.
            rewrite <- (Hd' d Hd). by destruct d as [[??]?].
          * apply HP2. rewrite Ek. unfold recorded. simpl. rewrite elem_of_app. by right.
      - rewrite lookup_insert_ne in Hq' by done. by apply HP2. }
    apply always_app; [apply always_fetch; [apply consistent_same|done..]|].
    fold σ1. apply always_cons; [done|]. fold σ2.
    apply always_cons; [done|]. fold σ3.
    apply always_cons; [done|].
    apply IH. intros q Hq'. unfold recorded in Hq'. simpl in Hq'.
    change (rows_of aid' d' q (replay σ1 _)) with (rows_of aid' d' q σ2).
    apply HP3. unfold recorded. simpl. apply elem_of_app. left.
    by apply elem_of_app in Hq' as [Hq'|Hq'].
Qed.

End consistency_facts.

Section one_to_one_facts.
Import Text Anno Anno.Http Spec.
Variable session_get : list event → string → outcome response.
Variable strptime : string → option (Z * Z * Z).
Variables (aid title date_str : string) (worker_id : Z).
Implicit Types (σ : state) (ps : list nat) (results : list record) (aliased : bool).

Local Abbreviation key := (issue_key aid date_str).
Local Abbreviation scan := (Spec.scan session_get strptime aid title date_str).
Local Abbreviation issue := (scrape_issue session_get strptime aid title date_str worker_id).

Lemma one_to_one_consistent1 a d k σ : one_to_one a d k σ → consistent1 a d k σ.
Proof.
  intros [Hf Hr] q Hq. rewrite Hr. rewrite decide_True; [done|].
  apply elem_of_app in Hq as [?|?]; auto.
Qed.

(** The three writes for one page, from a state in one-to-one
    correspondence in which the page is not recorded. *)
Lemma page_block_one_to_one σ1 d p t h r :
  r = {| Anno.title := title; Anno.aid := aid; year := d.1.1; month := d.1.2; day := d.2;
         page := p; Anno.text := t |} →
  one_to_one aid d key σ1 →
  pretty p ∉ default [] (progress σ1 !! key) →
  let σ2 := apply σ1 (ToCsv h r) in
  let σ3 := apply σ2 (Append key (pretty p)) in
  let σ4 := apply σ3 (JsonDump (progress σ3)) in
  consistent1 aid d key σ2 ∧ consistent1 aid d key σ3 ∧
  consistent1 aid d key σ4 ∧ one_to_one aid d key σ4.
Proof.
  intros Hr [Hf H1] Hp σ2 σ3 σ4.
  assert (∀ q, is_row_of aid d q r ↔ q = pretty p) as Hrow.
  { intros q. rewrite Hr. unfold is_row_of. simpl. destruct d as [[??]?]. simpl.
    split; [by intros (_ & _ & <-)|by intros ->]. }
  assert (∀ q, length (rows_of aid d q σ2)
               = if decide (q ∈ default [] (progress σ1 !! key) ++ [pretty p])
                 then 1 else 0) as H2.
  { intros q. unfold σ2. rewrite rows_of_to_csv, length_app, H1.
    destruct (decide (q = pretty p)) as [->|Hq].
    - rewrite decide_False by done. rewrite (decide_True (P := is_row_of _ _ _ _)) by by apply Hrow.
      rewrite decide_True; [done|]. apply elem_of_app. right. by left.
    - rewrite (decide_False (P := is_row_of _ _ _ _)) by by rewrite Hrow.
      simpl. rewrite Nat.add_0_r.
      destruct (decide (q ∈ default [] (progress σ1 !! key))) as [Hin|Hin].
      + rewrite decide_True; [done|]. apply elem_of_app. by left.
      + rewrite decide_False; [done|]. rewrite elem_of_app, list_elem_of_singleton. tauto. }
  assert (∀ q, q ∈ recorded key σ1 → q ∈ default [] (progress σ1 !! key)) as Hrec.
  { intros q Hq. apply elem_of_app in Hq as [?|?]; auto. }
  assert (consistent1 aid d key σ3) as H3.
  { intros q Hq. change (rows_of aid d q σ3) with (rows_of aid d q σ2). rewrite H2.
    rewrite decide_True; [done|]. unfold recorded in Hq. simpl in Hq.
    rewrite lookup_insert_eq in Hq. simpl in Hq.
    apply elem_of_app in Hq as [Hq|Hq]; [done|]. apply elem_of_app. left. by apply Hf. }
  split; [|split; [done|split]].
  - intros q Hq. rewrite H2. rewrite decide_True; [done|].
    apply elem_of_app. left. by apply Hrec.
  - intros q Hq. change (rows_of aid d q σ4) with (rows_of aid d q σ2). rewrite H2.
    rewrite decide_True; [done|]. unfold recorded in Hq. simpl in Hq.
    rewrite lookup_insert_eq in Hq. simpl in Hq. by apply elem_of_app in Hq as [Hq|Hq].
  - split.
    + intros q. simpl. by rewrite lookup_insert_eq.
    + intros q. change (rows_of aid d q σ4) with (rows_of aid d q σ2). rewrite H2.
      simpl. by rewrite lookup_insert_eq.
Qed.

(** In a call that starts from such a state every recorded page has
    exactly one row, at every point. *)
Lemma scan_one_to_one aliased ps results σ out evs d :
  scan aliased ps results σ out evs →
  NoDup ps →
  (aliased = false → ∀ q, q ∈ ps → pretty q ∉ default [] (progress σ !! key)) →
  strptime date_str = Some d →
  one_to_one aid d key σ →
  always (consistent1 aid d key) σ evs.
Proof.
  intros Hs. induction Hs
    as [|p ps results σ out evs _ _ IH
        |p ps results σ res tl _ _ Hq _|p ps results σ res tl _ _ Hq _ _
        |p ps results σ res tl d0 t r σ1 out evs Hdone _ Hq _ _ Hd0 Hr -> _ IH];
    intros Hnd Hfresh Hd HP.
  - by apply always_nil, one_to_one_consistent1.
  - apply NoDup_cons in Hnd as [_ Hnd]. apply IH; [done| |done..].
    intros Ha q Hq. apply Hfresh; [done|by right].
  - apply always_fetch; [apply consistent1_same|by apply one_to_one_consistent1|done].
  - apply always_fetch; [apply consistent1_same|by apply one_to_one_consistent1|done].
  - assert (d0 = d) as -> by congruence.
    apply NoDup_cons in Hnd as [Hp Hnd].
    assert (pretty p ∉ default [] (progress σ !! key)) as Hmem.
    { destruct aliased; [exact Hdone|]. apply Hfresh; [done|by left]. }
    set (σ1 := replay σ (Get aid date_str p :: tl)) in *.
    assert (same_store σ σ1) as Hsame by (by apply replay_fetch).
    assert (one_to_one aid d key σ1) as HP1 by (by eapply one_to_one_same).
    assert (pretty p ∉ default [] (progress σ1 !! key)) as Hmem1.
    { by destruct Hsame as (<- & _). }
    destruct (page_block_one_to_one σ1 d p t (bool_decide (output_file σ1 = None)) r
                Hr HP1 Hmem1) as (H2 & H3 & H4 & H5).
    apply always_app;
      [apply always_fetch; [apply consistent1_same|by apply one_to_one_consistent1|done]|].
    fold σ1. apply always_cons; [by apply one_to_one_consistent1|].
    apply always_cons; [exact H2|].
    apply always_cons; [exact H3|].
    apply IH; [done| |done|exact H5].
    intros Ha q Hq'. simpl. rewrite lookup_insert_eq. simpl.
    destruct Hsame as (<- & _). rewrite elem_of_app, list_elem_of_singleton.
    intros [Hin|Heq].
    + revert Hin. apply Hfresh; [done|by right].
    + apply (inj pretty) in Heq as ->. done.
Qed.

End one_to_one_facts.

Section store_claims.
Import Text Anno Anno.Http Spec.
Variable session_get : list event → string → outcome response.
Variable strptime : string → option (Z * Z * Z).
Variables (aid title date_str : string) (worker_id : Z).
Implicit Types (σ : state).

Local Abbreviation key := (issue_key aid date_str).
Local Abbreviation issue := (scrape_issue session_get strptime aid title date_str worker_id).

(** C2, as the code has it. The writes of a call of [scrape_issue] come
    in the order: row appended to the output file, page appended to
    [progress], [progress] written to the checkpoint. So at every point
    of the call, and in the state a crash at that point leaves, every
    page recorded for an issue, in memory or in the checkpoint, has at
    least one row of that issue in the output file, provided this was so
    before the call; the issue is the one scraped or any issue with
    another key. A row may be there whose page is not recorded yet, never
    the reverse. Every recorded page of the scraped issue has exactly one
    row at every point when the call starts from a state where its rows
    and its recorded pages correspond one to one. *)
Theorem rows_precede_progress σ max_pages aid' d' key' :
  (key' = key → aid' = aid ∧ ∀ d, strptime date_str = Some d → d = d') →
  consistent aid' d' key' σ →
  ∃ out evs,
    issue max_pages σ = (out, replay σ evs) ∧
    write_order aid key evs ∧
    always (consistent aid' d' key') σ evs ∧
    (∀ d, strptime date_str = Some d → one_to_one aid d key σ →
          always (consistent1 aid d key) σ evs).
Proof.
  intros Hkey HP.
  destruct (scrape_issue_scan session_get strptime aid title date_str worker_id
              σ max_pages) as (out & evs & E & Hs).
  exists out, evs. split; [done|]. split; [by eapply scan_write_order|].
  split; [by eapply scan_consistent|].
  intros d Hd H1. eapply scan_one_to_one; [done|apply NoDup_seq| |done..].
  intros Ha%bool_decide_eq_false q _.
  destruct (progress σ !! key) eqn:El; [by destruct Ha|]. apply not_elem_of_nil.
Qed.

End store_claims.

Section store_examples.
Import Text Anno Anno.Http Spec.

(** C2 as stated fails. A fresh worker scrapes page 1 and stops right
    after the row is appended, before [progress] is extended. At the
    restart nothing is recorded, so every recorded page has exactly one
    row; the rerun fetches page 1 again, appends a second row and records
    the page: a recorded page with two rows. *)
Lemma restart_after_crash_duplicates_row :
  let session_get := λ (_ : list event) u,
    if bool_decide (u = url "wrz" "20210504" 1)
    then Return {| status_code := 200;
                   Http.text := "[ 2021-05-04 - 20210504 - Seite 1 ] Hello world" |}
    else Return {| status_code := 200;
                   Http.text := "[ 2021-05-04 - 20210504 - Seite 2 ]" |} in
  let scrape := scrape_issue session_get strptime_Ymd "wrz" "Wiener Zeitung" "20210504" 1 100 in
  let crashed := replay (boot None None) (take 3 (trace (scrape (boot None None)).2)) in
  let restarted := (load_progress 1 (boot (output_file crashed) (progress_file crashed))).2 in
  let d := (2021, 5, 4)%Z in
  length (default [] (output_file crashed)) = 1 ∧ progress_file crashed = None ∧
  consistent1 "wrz" d "wrz_20210504" restarted ∧
  "1" ∈ recorded "wrz_20210504" (scrape restarted).2 ∧
  length (rows_of "wrz" d "1" (scrape restarted).2) = 2 ∧
  ¬ consistent1 "wrz" d "wrz_20210504" (scrape restarted).2.
Proof.
  intros session_get scrape crashed restarted d.
  assert ("1" ∈ recorded "wrz_20210504" (scrape restarted).2) as Hin
    by (vm_compute; left).
  split; [by vm_compute|]. split; [by vm_compute|]. split.
  { intros p Hp. vm_compute in Hp. by apply elem_of_nil in Hp. }
  split; [done|]. split; [by vm_compute|].
  intros H. specialize (H "1" Hin). vm_compute in H. discriminate H.
Qed.

Lemma rows_precede_progress_witness :
  let session_get := λ (_ : list event) (_ : string),
    Return {| status_code := 200;
              Http.text := "[ 2021-05-04 - 20210504 - Seite 1 ] Hello world" |} in
  let σ := boot None None in
  ∃ out evs,
    scrape_issue session_get strptime_Ymd "wrz" "Wiener Zeitung" "20210504" 1 3 σ
      = (out, replay σ evs) ∧
    write_order "wrz" (issue_key "wrz" "20210504") evs ∧
    always (consistent "wrz" (2021, 5, 4)%Z (issue_key "wrz" "20210504")) σ evs ∧
    (∀ d, strptime_Ymd "20210504" = Some d →
          one_to_one "wrz" d (issue_key "wrz" "20210504") σ →
          always (consistent1 "wrz" d (issue_key "wrz" "20210504")) σ evs).
Proof.
  intros session_get σ.
  apply (rows_precede_progress session_get strptime_Ymd "wrz" "Wiener Zeitung" "20210504" 1
           σ 3 "wrz" (2021, 5, 4)%Z (issue_key "wrz" "20210504")).
  - intros _. split; [reflexivity|]. intros d Hd. vm_compute in Hd. congruence.
  - intros p Hp. vm_compute in Hp. by apply elem_of_nil in Hp.
Defined.

Lemma progress_stays_contiguous_witness :
  let session_get := λ (_ : list event) (_ : string),
    Return {| status_code := 200;
              Http.text := "[ 2021-05-04 - 20210504 - Seite 1 ] Hello world" |} in
  let σ := {| progress := {[ "wrz_20210504" := ["1"] ]};
              output_file := None;
              progress_file := Some {[ "wrz_20210504" := ["1"] ]};
              trace := [] |} in
  ∃ out evs,
    scrape_issue session_get strptime_Ymd "wrz" "Wiener Zeitung" "20210504" 1 3 σ
      = (out, replay σ evs) ∧
    always (λ σ', contiguous (progress σ') ∧
                  ∀ m, progress_file σ' = Some m → contiguous m) σ evs ∧
    ∃ k j, default [] (progress σ !! issue_key "wrz" "20210504") = pages_upto k ∧
           appends evs = (λ i, (issue_key "wrz" "20210504", pretty i)) <$> seq (S k) j.
Proof.
  intros session_get σ.
  apply (progress_stays_contiguous session_get strptime_Ymd "wrz" "Wiener Zeitung" "20210504" 1
           σ 3).
  - intros k l Hl. simpl in Hl. apply lookup_singleton_Some in Hl as [_ <-]. by exists 1.
  - intros m [= <-] k l Hl. apply lookup_singleton_Some in Hl as [_ <-]. by exists 1.
Defined.

End store_examples.

(** ** The worker after a 403 *)

Section worker_examples.
Import Text Anno Anno.Http Spec.

(** C8, at the failing input: a worker with two issues whose every
    request is answered with status 403. No [PermissionError] reaches
    [run_worker]: the first issue ends like one without pages, the worker
    goes on to the second issue and sends its request too, and the
    message of the [except PermissionError] branch is never printed. On
    no input at all does [scrape_issue] raise a [PermissionError]. *)
Theorem access_denied_does_not_stop_worker :
  (∀ session_get strptime aid title date_str worker_id max_pages σ msg,
     (scrape_issue session_get strptime aid title date_str worker_id max_pages σ).1
       ≠ Raise (PermissionError msg)) ∧
  let session_get := λ (_ : list event) (_ : string),
    Return {| status_code := 403; Http.text := "Forbidden" |} in
  let df := [(IsStr "wrz", "Wiener Zeitung", "20210504");
             (IsStr "nfp", "Neue Freie Presse", "20210504")] in
  let run := run_worker session_get strptime_Ymd df 1 1 (boot None None) in
  run.1 = Return () ∧
  trace run.2 =
    [ Print (Beginne 1 "wrz" "20210504");
      Get "wrz" "20210504" 1; Sleep;
      Print (FehlerBeiSeite 1 (PermissionError "403 Forbidden"));
      Print (Beginne 1 "nfp" "20210504");
      Get "nfp" "20210504" 1; Sleep;
      Print (FehlerBeiSeite 1 (PermissionError "403 Forbidden"));
      Print (AlleVerarbeitet 1 0) ].
Proof.
  split; [|split; reflexivity].
  intros session_get strptime aid title date_str worker_id max_pages σ msg H.
  by apply scrape_issue_raises_ValueError_only in H.
Qed.

End worker_examples.

(** ** The merge step *)

Section merge_facts.
Import Text Anno Merge.
Implicit Types (r : record) (l : list record) (dir : gmap string (list record)).

Lemma good_lex {R} (c1 c2 : R → R → comparison) :
  good c1 → good c2 → good (λ x y, lex (c1 x y) (c2 x y)).
Proof.
  intros (E1 & T1 & A1) (E2 & T2 & A2). unfold lex. split; [|split].
  - intros x y z. destruct (c1 x y) eqn:H1; [|done..]. intros H2.
    rewrite (E1 x y z H1). destruct (c1 y z); [by apply E2|done..].
  - intros x y z. destruct (c1 x y) eqn:H1; [|intros _|done].
    + rewrite (E1 x y z H1). destruct (c1 y z); [apply T2|done..].
    + destruct (c1 y z) eqn:H2; [| |done].
      * assert (c1 x z = Lt) as ->; [|done].
        rewrite <- H1. rewrite (A1 z x), (A1 y x). f_equal.
        apply E1. by rewrite A1, H2.
      * by rewrite (T1 x y z H1 H2).
  - intros x y. rewrite (A1 x y). destruct (c1 x y); simpl; [apply A2|done..].
Qed.

Lemma good_pull {R A} (f : R → A) (c : A → A → comparison) :
  good c → good (λ x y, c (f x) (f y)).
Proof. intros (E & T & An). split; [|split]; eauto. Qed.

Lemma good_Z : good Z.compare.
Proof.
  split; [|split].
  - intros x y z ->%Z.compare_eq. done.
  - intros x y z. rewrite !Z.compare_lt_iff. lia.
  - intros x y. apply Z.compare_antisym.
Qed.

Lemma good_nat : good Nat.compare.
Proof.
  split; [|split].
  - intros x y z ->%Nat.compare_eq. done.
  - intros x y z. rewrite !Nat.compare_lt_iff. lia.
  - intros x y. apply Nat.compare_antisym.
Qed.

Lemma string_compare_refl (x : string) : String.compare x x = Eq.
Proof.
  induction x as [|a x IH]; simpl; [done|].
  unfold Ascii.compare. by rewrite N.compare_refl.
Qed.

Lemma string_compare_lt (x y : string) :
  String.compare x y = Lt ↔ String.le x y ∧ x ≠ y.
Proof.
  unfold String.le, String.leb. split.
  - intros H. rewrite H. split; [done|]. intros ->.
    by rewrite string_compare_refl in H.
  - intros [H1 H2]. destruct (String.compare x y) eqn:E; [|done..].
    by apply String.compare_eq_iff in E.
Qed.

Lemma good_string : good String.compare.
Proof.
  split; [|split].
  - intros x y z ->%String.compare_eq_iff. done.
  - intros x y z [H1 N1]%string_compare_lt [H2 N2]%string_compare_lt.
    apply string_compare_lt. split; [by trans y|].
    intros ->. apply N1. by apply (anti_symm String.le).
  - intros x y. apply String.compare_antisym.
Qed.

Lemma good_rows : good compare_rows.
Proof.
  unfold compare_rows.
  apply (good_lex (λ r1 r2, String.compare (aid r1) (aid r2))).
  { apply (good_pull aid), good_string. }
  apply (good_lex (λ r1 r2, year r1 ?= year r2)%Z).
  { apply (good_pull year), good_Z. }
  apply (good_lex (λ r1 r2, month r1 ?= month r2)%Z).
  { apply (good_pull month), good_Z. }
  apply (good_lex (λ r1 r2, day r1 ?= day r2)%Z).
  { apply (good_pull day), good_Z. }
  apply (good_pull page), good_nat.
Qed.

Global Instance row_le_total : Total row_le.
Proof.
  intros r1 r2. unfold row_le, row_leb.
  destruct good_rows as (_ & _ & A). rewrite (A r1 r2).
  destruct (compare_rows r1 r2); auto.
Qed.

Global Instance row_le_trans : Transitive row_le.
Proof.
  intros r1 r2 r3. unfold row_le, row_leb.
  destruct good_rows as (E & T & A).
  destruct (compare_rows r1 r2) eqn:H1; [|intros _|done].
  - by rewrite (E r1 r2 r3 H1).
  - destruct (compare_rows r2 r3) eqn:H2; [| |done]; intros _.
    + assert (compare_rows r1 r3 = Lt) as ->; [|done].
      rewrite <- H1. rewrite (A r3 r1), (A r2 r1). f_equal.
      apply E. by rewrite A, H2.
    + by rewrite (T r1 r2 r3 H1 H2).
Qed.

Lemma insert_row_perm r l : insert_row r l ≡ₚ r :: l.
Proof.
  induction l as [|y l IH]; simpl; [done|].
  destruct (row_leb r y); [done|]. rewrite IH. apply perm_swap.
Qed.

Lemma sort_values_perm l : sort_values l ≡ₚ l.
Proof.
  induction l as [|r l IH]; simpl; [done|].
  by rewrite insert_row_perm, IH.
Qed.

Lemma insert_row_sorted r l : Sorted row_le l → Sorted row_le (insert_row r l).
Proof.
  induction 1 as [|y l Hl IH Hy]; simpl; [by repeat constructor|].
  destruct (row_leb r y) eqn:E.
  - constructor; [by constructor|]. by constructor.
  - constructor; [done|].
    assert (row_le y r) as Hyr.
    { destruct (total row_le r y) as [H|H]; [|done]. unfold row_le in H. congruence. }
    destruct l as [|z l]; simpl; [by constructor|].
    destruct (row_leb r z); constructor; [done|]. by inversion Hy.
Qed.

Lemma sort_values_sorted l : StronglySorted row_le (sort_values l).
Proof.
  apply Sorted_StronglySorted; [apply _|].
  induction l as [|r l IH]; simpl; [constructor|]. by apply insert_row_sorted.
Qed.

Lemma elem_of_worker_files dir f :
  f ∈ worker_files dir ↔ is_Some (dir !! f) ∧ fullmatch GLOB f = true.
Proof.
  unfold worker_files. rewrite merge_sort_Permutation, list_elem_of_filter.
  rewrite elem_of_elements, elem_of_dom. tauto.
Qed.

Lemma NoDup_worker_files dir : NoDup (worker_files dir).
Proof.
  unfold worker_files. rewrite merge_sort_Permutation.
  apply NoDup_filter, NoDup_elements.
Qed.

(** The list of worker files depends on the worker files alone. *)
Lemma worker_files_ext dir dir' :
  (∀ f, fullmatch GLOB f = true → dir' !! f = dir !! f) →
  worker_files dir' = worker_files dir.
Proof.
  intros H. apply (Sorted_unique String.le).
  - apply Sorted_merge_sort. apply _.
  - apply Sorted_merge_sort. apply _.
  - apply NoDup_Permutation; [apply NoDup_worker_files..|].
    intros f. rewrite !elem_of_worker_files. split; intros [Hf Hm]; (split; [|done]).
    + by rewrite <- (H f Hm).
    + by rewrite (H f Hm).
Qed.

Lemma main_ext dir dir' :
  (∀ f, fullmatch GLOB f = true → dir' !! f = dir !! f) →
  ∀ master, main dir = Some (<[OUTPUT_FILE := master]> dir) →
            main dir' = Some (<[OUTPUT_FILE := master]> dir').
Proof.
  intros H master Hmain.
  assert ((λ f, default [] (dir' !! f)) <$> worker_files dir
          = (λ f, default [] (dir !! f)) <$> worker_files dir) as Hc.
  { apply list_fmap_ext. intros i g Hg. f_equal. apply H.
    apply list_elem_of_lookup_2 in Hg. by apply elem_of_worker_files in Hg as [_ ?]. }
  unfold main in *. rewrite (worker_files_ext dir dir' H), Hc.
  destruct (worker_files dir) as [|f fs]; [done|].
  apply (inj Some) in Hmain. apply (f_equal (lookup OUTPUT_FILE)) in Hmain.
  rewrite !lookup_insert_eq in Hmain. apply (inj Some) in Hmain. by rewrite Hmain.
Qed.

Lemma main_without_worker_files dir : worker_files dir = [] → main dir = None.
Proof. unfold main. by intros ->. Qed.

(** C9: when there is a worker file, [main] writes one master file (and
    raises [FileNotFoundError] before writing anything when there is none).
    The worker files read are the files of the directory whose name matches
    [output_worker_*.csv], each once; the master file holds exactly the
    rows of these files, as many times as they occur there, in the order of
    [(aid, year, month, day, page)]. The master file depends on the worker
    files only, and a second run of the merge on the directory it has
    written to gives the same directory again. *)
Theorem merge_is_sorted_union dir :
  worker_files dir ≠ [] →
  ∃ master,
    main dir = Some (<[OUTPUT_FILE := master]> dir) ∧
    (∀ f, f ∈ worker_files dir ↔ is_Some (dir !! f) ∧ fullmatch GLOB f = true) ∧
    NoDup (worker_files dir) ∧
    master ≡ₚ concat ((λ f, default [] (dir !! f)) <$> worker_files dir) ∧
    StronglySorted row_le master ∧
    (∀ dir', (∀ f, fullmatch GLOB f = true → dir' !! f = dir !! f) →
             main dir' = Some (<[OUTPUT_FILE := master]> dir')) ∧
    main (<[OUTPUT_FILE := master]> dir) = Some (<[OUTPUT_FILE := master]> dir).
Proof.
  intros Hne.
  set (master := sort_values (concat ((λ f, default [] (dir !! f)) <$> worker_files dir))).
  assert (main dir = Some (<[OUTPUT_FILE := master]> dir)) as Hmain.
  { unfold main. by destruct (worker_files dir). }
  exists master. split; [done|]. split; [apply elem_of_worker_files|].
  split; [apply NoDup_worker_files|]. split; [apply sort_values_perm|].
  split; [apply sort_values_sorted|]. split.
  - intros dir' H. by apply (main_ext dir).
  - rewrite <- (insert_insert_eq dir OUTPUT_FILE master master) at 2.
    apply (main_ext dir); [|done].
    intros f Hf. apply lookup_insert_ne. intros <-. by vm_compute in Hf.
Qed.

End merge_facts.

Section merge_examples.
Import Text Anno Merge.

Lemma merge_is_sorted_union_witness :
  let r1 := {| title := "Wiener Zeitung"; aid := "wrz"; year := 2021; month := 5; day := 4;
               page := 1; text := "Hello world" |} in
  let r2 := {| title := "Neue Freie Presse"; aid := "nfp"; year := 1900; month := 1; day := 2;
               page := 1; text := "Guten Morgen" |} in
  let dir : gmap string (list record) :=
    {[ "output_worker_1.csv" := [r1]; "output_worker_2.csv" := [r2] ]} in
  ∃ master, main dir = Some (<[OUTPUT_FILE := master]> dir) ∧ StronglySorted row_le master.
Proof.
  intros r1 r2 dir.
  assert (worker_files dir ≠ []) as Hne by (vm_compute; discriminate).
  destruct (merge_is_sorted_union dir Hne) as (master & Hm & _ & _ & _ & Hs & _).
  exists master. split; [exact Hm|exact Hs].
Defined.

End merge_examples.

(** * Further properties of the worker module *)

(** ** Trimming *)

Section strip_facts.
Import Text.

Lemma rev_app_append (s t : string) : String.rev_app s t = String.rev s +:+ t.
Proof.
  unfold String.rev. revert t. induction s as [|a s IH]; intros t; simpl; [done|].
  rewrite (IH (String a t)), (IH (String a "")). by rewrite app_assoc_s.
Qed.

Lemma rev_cons (a : ascii) (s : string) :
  String.rev (String a s) = String.rev s +:+ String a "".
Proof. unfold String.rev at 1. simpl. apply rev_app_append. Qed.

Lemma rev_snoc (s : string) (a : ascii) :
  String.rev (s +:+ String a "") = String a (String.rev s).
Proof.
  induction s as [|b s IH]; [done|].
  rewrite str_app_cons, !rev_cons, IH. done.
Qed.

Lemma rev_involutive (s : string) : String.rev (String.rev s) = s.
Proof.
  induction s as [|a s IH]; [done|]. by rewrite rev_cons, rev_snoc, IH.
Qed.

Lemma lstrip_idem (s : string) : lstrip (lstrip s) = lstrip s.
Proof.
  induction s as [|c s IH]; simpl; [done|].
  destruct (isspace c) eqn:E; [done|]. simpl. by rewrite E.
Qed.

Lemma lstrip_head (s : string) c t : lstrip s = String c t → isspace c = false.
Proof.
  induction s as [|a s IH]; simpl; [done|].
  destruct (isspace a) eqn:E; [done|]. by intros [= <- _].
Qed.

Lemma lstrip_snoc (x : string) (c : ascii) :
  isspace c = false → ∃ y, lstrip (x +:+ String c "") = y +:+ String c "".
Proof.
  intros Hc. induction x as [|a x IH].
  - exists "". simpl. by rewrite Hc.
  - rewrite str_app_cons. simpl. destruct (isspace a); [done|].
    exists (String a x). by rewrite str_app_cons.
Qed.

Lemma rstrip_idem (s : string) : rstrip (rstrip s) = rstrip s.
Proof. unfold rstrip. by rewrite rev_involutive, lstrip_idem. Qed.

Lemma lstrip_rstrip (s : string) : lstrip (rstrip (lstrip s)) = rstrip (lstrip s).
Proof.
  destruct (lstrip s) as [|c v] eqn:E; [done|].
  apply lstrip_head in E. unfold rstrip. rewrite rev_cons.
  destruct (lstrip_snoc (String.rev v) c E) as [y ->].
  rewrite rev_snoc. simpl. by rewrite E.
Qed.

(** [strip] leaves a string that [strip] does not change. *)
Lemma strip_fixed (s : string) :
  lstrip (strip s) = strip s ∧ rstrip (strip s) = strip s.
Proof. unfold strip. split; [apply lstrip_rstrip|apply rstrip_idem]. Qed.

End strip_facts.

(** ** The results of [scrape_page] *)

Section fetcher_extras.
Import Text Anno Anno.Http Spec.
Variable session_get : list event → string → outcome response.
Implicit Types (σ : state) (r : response).

Lemma scrape_page_content aid date_str p σ t :
  (scrape_page session_get aid date_str p σ).1 = Return (Some t, None) →
  ∃ r, session_get (trace σ) (url aid date_str p) = Return r ∧
       ¬ (400 ≤ status_code r < 600)%Z ∧
       fullmatch PLACEHOLDER (strip (Http.text r)) = false ∧
       t = strip (sub_prefix HEADER (Http.text r)) ∧ nonempty t = true.
Proof.
  destruct (session_get (trace σ) (url aid date_str p)) as [r|e] eqn:H.
  - destruct (decide (status_code r = 403%Z)) as [E1|E1].
    { by rewrite (scrape_page_403 _ _ _ _ _ _ H E1). }
    destruct (decide (status_code r = 500%Z)) as [E2|E2].
    { by rewrite (scrape_page_500 _ _ _ _ _ _ H E2). }
    destruct (decide (400 ≤ status_code r < 600)%Z) as [E3|E3].
    { by rewrite (scrape_page_http_error _ _ _ _ _ _ H E1 E2 E3). }
    rewrite (scrape_page_body _ _ _ _ _ _ H E3). simpl.
    destruct (fullmatch PLACEHOLDER _) eqn:Hm; [done|].
    destruct (nonempty _) eqn:Hn; [|done].
    intros [= <-]. by exists r.
  - by rewrite (scrape_page_raise _ _ _ _ _ _ H).
Qed.

(** X1: whatever the remote does, a call of [scrape_page] returns and
    raises nothing, issues one request, logs after it nothing but the
    delay and console output, and leaves [progress] and both files alone.
    Its result is one of the four error results without text, or a text
    that is not empty and no error. *)
Theorem scrape_page_always_classifies aid date_str p σ :
  ∃ res tl,
    scrape_page session_get aid date_str p σ
      = (Return res, replay σ (Get aid date_str p :: tl)) ∧
    Forall quiet tl ∧
    same_store σ (replay σ (Get aid date_str p :: tl)) ∧
    (res ∈ [ (None, Some "server_error_500"); (None, Some "invalid_index");
             (None, Some "no_content"); (None, Some "error") ]
     ∨ ∃ c t, res = (Some (String c t), None)).
Proof.
  destruct (scrape_page_run session_get aid date_str p σ) as (res & tl & Hp & Hq).
  exists res, tl. split; [done|]. split; [done|]. split; [by apply replay_fetch|].
  assert ((scrape_page session_get aid date_str p σ).1 = Return res) as Hres
    by by rewrite Hp.
  clear Hp. revert Hres.
  destruct (session_get (trace σ) (url aid date_str p)) as [r|e] eqn:H.
  - destruct (decide (status_code r = 403%Z)) as [E1|E1].
    { rewrite (scrape_page_403 _ _ _ _ _ _ H E1). intros [= <-]. left. repeat constructor. }
    destruct (decide (status_code r = 500%Z)) as [E2|E2].
    { rewrite (scrape_page_500 _ _ _ _ _ _ H E2). intros [= <-]. left. repeat constructor. }
    destruct (decide (400 ≤ status_code r < 600)%Z) as [E3|E3].
    { rewrite (scrape_page_http_error _ _ _ _ _ _ H E1 E2 E3). intros [= <-].
      left. repeat constructor. }
    rewrite (scrape_page_body _ _ _ _ _ _ H E3). simpl.
    destruct (fullmatch PLACEHOLDER _); [intros [= <-]; left; repeat constructor|].
    destruct (strip (sub_prefix HEADER (Http.text r))) as [|c t]; simpl.
    + intros [= <-]. left. repeat constructor.
    + intros [= <-]. right. by exists c, t.
  - rewrite (scrape_page_raise _ _ _ _ _ _ H). intros [= <-]. left. repeat constructor.
Qed.

(** X2: a response with an error status, 400 to 599, never gives
    content. Status 500 gives [(None, "server_error_500")] and prints
    nothing; every other such status, 403 among them, gives
    [(None, "error")] after the exception raised for it has been printed.
    The delay has taken place in each case. *)
Theorem error_status_gives_no_content aid date_str p σ r :
  session_get (trace σ) (url aid date_str p) = Return r →
  (400 ≤ status_code r < 600)%Z →
  scrape_page session_get aid date_str p σ =
    if bool_decide (status_code r = 500%Z)
    then (Return (None, Some "server_error_500"), replay σ [Get aid date_str p; Sleep])
    else (Return (None, Some "error"),
          replay σ [Get aid date_str p; Sleep;
                    Print (FehlerBeiSeite p
                             (if bool_decide (status_code r = 403%Z)
                              then PermissionError "403 Forbidden"
                              else HTTPError (status_code r)))]).
Proof.
  intros H E. destruct (decide (status_code r = 403%Z)) as [E1|E1].
  { rewrite (scrape_page_403 _ _ _ _ _ _ H E1), E1. done. }
  rewrite (bool_decide_false (status_code r = 403%Z)) by done.
  case_bool_decide as E2.
  - by eapply scrape_page_500.
  - by eapply scrape_page_http_error.
Qed.

(** X3: a text that [scrape_page] returns is not empty and is trimmed:
    it neither starts nor ends with white space, so [strip] would not
    change it. *)
Theorem content_is_trimmed aid date_str p σ t :
  (scrape_page session_get aid date_str p σ).1 = Return (Some t, None) →
  t ≠ "" ∧ lstrip t = t ∧ rstrip t = t ∧ strip t = t.
Proof.
  intros (r & _ & _ & _ & -> & Hn)%scrape_page_content.
  destruct (strip_fixed (sub_prefix HEADER (Http.text r))) as [Hl Hr].
  split; [by destruct (strip _)|]. split; [done|]. split; [done|].
  unfold strip at 1. by rewrite Hl, Hr.
Qed.

End fetcher_extras.

Section fetcher_extras_examples.
Import Text Anno Anno.Http Spec.

Lemma error_status_gives_no_content_witness :
  let r := {| status_code := 404; Http.text := "[x] Not found" |} in
  scrape_page (λ _ _, Return r) "wrz" "20210504" 7 (boot None None)
    = (Return (None, Some "error"),
       replay (boot None None)
         [Get "wrz" "20210504" 7; Sleep; Print (FehlerBeiSeite 7 (HTTPError 404))]).
Proof.
  intros r.
  apply (error_status_gives_no_content (λ _ _, Return r) "wrz" "20210504" 7 (boot None None) r);
    [reflexivity | simpl; lia].
Defined.

Lemma content_is_trimmed_witness :
  let r := {| status_code := 200; Http.text := "[ kopf ]   Die Presse.  " |} in
  let t := "Die Presse." in
  (scrape_page (λ _ _, Return r) "wrz" "20210504" 1 (boot None None)).1 = Return (Some t, None) ∧
  t ≠ "" ∧ lstrip t = t ∧ rstrip t = t ∧ strip t = t.
Proof.
  intros r t. split; [reflexivity|].
  apply (content_is_trimmed (λ _ _, Return r) "wrz" "20210504" 1 (boot None None) t).
  reflexivity.
Defined.

End fetcher_extras_examples.

(** ** The key of an issue *)

Section key_facts.
Import Anno Spec.

Lemma issue_key_cons (c : ascii) (a d : string) :
  issue_key (String c a) d = String c (issue_key a d).
Proof. reflexivity. Qed.

Lemma no_underscore_key (a d : string) : ¬ no_underscore (issue_key a d).
Proof.
  induction a as [|c a IH]; [by intros [? _]|].
  change (¬ no_underscore (String c (issue_key a d))). intros [_ ?]. auto.
Qed.

(** X4: two issues with the same key are the same issue when their
    dates hold no underscore, as the dates [YYYYMMDD] of the issue list
    do; without this the keys can collide, as for ("a_b", "c") and
    ("a", "b_c"). *)
Theorem issue_key_inj (aid aid' date date' : string) :
  no_underscore date → no_underscore date' →
  issue_key aid date = issue_key aid' date' →
  aid = aid' ∧ date = date'.
Proof.
  intros Hd Hd'. revert aid'.
  induction aid as [|c a IH]; intros [|c' a'].
  - change (String "_" date = String "_" date' → "" = "" ∧ date = date').
    by intros [= ->].
  - change (String "_" date = String c' (issue_key a' date') → "" = String c' a' ∧ date = date').
    intros [= <- ->]. by apply no_underscore_key in Hd.
  - change (String c (issue_key a date) = String "_" date' → String c a = "" ∧ date = date').
    intros [= -> <-]. by apply no_underscore_key in Hd'.
  - change (String c (issue_key a date) = String c' (issue_key a' date')
            → String c a = String c' a' ∧ date = date').
    intros [= -> H]. by destruct (IH a' H) as [-> ->].
Qed.

Lemma issue_key_inj_witness :
  issue_key "wrz" "20210504" = issue_key "wrz" "20210504" ∧
  issue_key "a_b" "c" = issue_key "a" "b_c" ∧
  ("wrz" = "wrz" ∧ "20210504" = "20210504").
Proof.
  split; [reflexivity|]. split; [reflexivity|].
  apply (issue_key_inj "wrz" "wrz" "20210504" "20210504"); [by vm_compute..|reflexivity].
Defined.

End key_facts.

(** ** What one call of [scrape_issue] writes *)

Section issue_extras.
Import Text Anno Anno.Http Spec.
Variable session_get : list event → string → outcome response.
Variable strptime : string → option (Z * Z * Z).
Variables (aid title date_str : string) (worker_id : Z).
Implicit Types (σ : state) (ps : list nat) (results : list record) (aliased : bool).

Local Abbreviation key := (issue_key aid date_str).
Local Abbreviation scan := (Spec.scan session_get strptime aid title date_str).
Local Abbreviation issue := (scrape_issue session_get strptime aid title date_str worker_id).

Lemma dumps_app evs1 evs2 : dumps (evs1 ++ evs2) = dumps evs1 ++ dumps evs2.
Proof. apply omap_app. Qed.
Lemma fetch_dumps a d p tl : Forall quiet tl → dumps (Get a d p :: tl) = [].
Proof. apply (quiet_dumps tl). Qed.
Lemma fetch_gets a d p tl : Forall quiet tl → gets (Get a d p :: tl) = [p].
Proof. intros H. change (gets (Get a d p :: tl)) with (p :: gets tl). by rewrite quiet_gets. Qed.

Local Abbreviation row_of_issue :=
  (λ r, Anno.aid r = aid ∧ Anno.title r = title ∧
        strptime date_str = Some (year r, month r, day r) ∧ Anno.text r ≠ "").

Lemma scan_rows aliased ps results σ out evs :
  scan aliased ps results σ out evs →
  (∀ rs, out = Return rs → rs = results ++ rows evs) ∧
  appends evs = (λ r, (key, pretty (page r))) <$> rows evs ∧
  length (dumps evs) = length (rows evs) ∧
  Forall row_of_issue (rows evs) ∧
  ∃ rest, gets evs = (page <$> rows evs) ++ rest ∧ length rest ≤ 1.
Proof.
  induction 1 as [results σ|p ps results σ out evs Hd Hs IH
                  |p ps results σ res tl Hd Hp Hq Hn|p ps results σ res tl Hd Hp Hq Hc Hdate
                  |p ps results σ res tl d t r σ1 out evs Hd Hp Hq Hc Ht Hdate Hr Hσ1 Hs IH].
  - split; [intros rs [= <-]; by rewrite app_nil_r|].
    split; [done|]. split; [done|]. split; [constructor|]. exists []. split; [done|simpl; lia].
  - done.
  - rewrite fetch_rows, fetch_appends, fetch_dumps, fetch_gets by done.
    split; [intros rs [= <-]; by rewrite app_nil_r|].
    split; [done|]. split; [done|]. split; [constructor|]. exists [p]. split; [done|simpl; lia].
  - rewrite fetch_rows, fetch_appends, fetch_dumps, fetch_gets by done.
    split; [done|].
    split; [done|]. split; [done|]. split; [constructor|]. exists [p]. split; [done|simpl; lia].
  - destruct IH as (IH1 & IH2 & IH3 & IH4 & rest & IH5 & IH6).
    rewrite !rows_app, !appends_app, !dumps_app, !gets_app.
    rewrite fetch_rows, fetch_appends, fetch_dumps, fetch_gets by done. simpl.
    split; [|split; [|split; [|split]]].
    + intros rs Hrs. rewrite (IH1 rs Hrs). by rewrite <- app_assoc.
    + rewrite IH2. by rewrite Hr.
    + by rewrite IH3.
    + constructor; [|done]. rewrite Hr. simpl.
      destruct Hc as [_ (c & t' & Hc)]. rewrite Ht in Hc. injection Hc as ->.
      by destruct d as [[??]?].
    + exists rest. rewrite IH5. by rewrite Hr.
Qed.

Lemma replay_output σ evs :
  default [] (output_file (replay σ evs)) = default [] (output_file σ) ++ rows evs.
Proof.
  revert σ. induction evs as [|e evs IH]; intros σ; simpl; [by rewrite app_nil_r|].
  rewrite IH. destruct e; simpl; try done. by rewrite <- app_assoc.
Qed.

(** X5: the list a call of [scrape_issue] returns is the list of rows
    the call has appended to the output file, in this order, and the file
    is the old file followed by these rows. Each such row carries the id
    and title of the issue, the date as [strptime] reads it and a text
    that is not empty. For each row, and for nothing else, the page is
    appended to [progress] under the key of the issue and the checkpoint
    is written. Every requested page but at most the last one has given
    a row. *)
Theorem results_are_the_rows_written σ max_pages :
  ∃ out evs,
    issue max_pages σ = (out, replay σ evs) ∧
    (∀ rs, out = Return rs → rs = rows evs) ∧
    default [] (output_file (replay σ evs)) = default [] (output_file σ) ++ rows evs ∧
    Forall (λ r, Anno.aid r = aid ∧ Anno.title r = title ∧
                 strptime date_str = Some (year r, month r, day r) ∧ Anno.text r ≠ "")
           (rows evs) ∧
    appends evs = (λ r, (key, pretty (page r))) <$> rows evs ∧
    length (dumps evs) = length (rows evs) ∧
    ∃ rest, gets evs = (page <$> rows evs) ++ rest ∧ length rest ≤ 1.
Proof.
  destruct (scrape_issue_scan session_get strptime aid title date_str worker_id
              σ max_pages) as (out & evs & E & Hs).
  exists out, evs. split; [done|].
  destruct (scan_rows _ _ _ _ _ _ Hs) as (H1 & H2 & H3 & H4 & H5).
  split; [exact H1|]. split; [apply replay_output|]. done.
Qed.

Lemma scan_fresh aliased ps results σ out evs :
  scan aliased ps results σ out evs →
  ∀ p, p ∈ gets evs → pretty p ∉ done_pages aliased key σ.
Proof.
  induction 1 as [results σ|p ps results σ out evs Hd Hs IH
                  |p ps results σ res tl Hd Hp Hq Hn|p ps results σ res tl Hd Hp Hq Hc Hdate
                  |p ps results σ res tl d t r σ1 out evs Hd Hp Hq Hc Ht Hdate Hr Hσ1 Hs IH];
    intros q Hin.
  - by apply elem_of_nil in Hin.
  - auto.
  - rewrite fetch_gets in Hin by done. by apply list_elem_of_singleton in Hin as ->.
  - rewrite fetch_gets in Hin by done. by apply list_elem_of_singleton in Hin as ->.
  - rewrite gets_app, fetch_gets in Hin by done.
    apply elem_of_cons in Hin as [->|Hin]; [done|].
    change (gets (_ :: _ :: _ :: evs)) with (gets evs) in Hin.
    specialize (IH q Hin). intros Hq'. apply IH.
    unfold done_pages in *. destruct aliased; [|done]. simpl.
    rewrite lookup_insert_eq. simpl. rewrite Hσ1.
    destruct (replay_fetch σ aid date_str p tl Hq) as (<- & _).
    apply elem_of_app. by left.
Qed.

(** X6: a call of [scrape_issue] requests no page that [progress]
    holds for the issue when the call starts: what is recorded is not
    fetched again. *)
Theorem recorded_pages_are_not_requested σ max_pages :
  ∃ out evs,
    issue max_pages σ = (out, replay σ evs) ∧
    ∀ p, p ∈ gets evs → pretty p ∉ default [] (progress σ !! key).
Proof.
  destruct (scrape_issue_scan session_get strptime aid title date_str worker_id
              σ max_pages) as (out & evs & E & Hs).
  exists out, evs. split; [done|]. intros p Hp.
  rewrite <- (done_pages_at_call aid date_str σ). by eapply scan_fresh.
Qed.

End issue_extras.

(** ** What one call of [scrape_issue] leaves alone *)

Section store_extras.
Import Text Anno Anno.Http Spec.
Variable session_get : list event → string → outcome response.
Variable strptime : string → option (Z * Z * Z).
Variables (aid title date_str : string) (worker_id : Z).
Implicit Types (σ : state) (ps : list nat) (results : list record) (aliased : bool).

Local Abbreviation key := (issue_key aid date_str).
Local Abbreviation scan := (Spec.scan session_get strptime aid title date_str).
Local Abbreviation issue := (scrape_issue session_get strptime aid title date_str worker_id).

Lemma extends_refl σ : extends σ σ.
Proof. split; done. Qed.

Lemma extends_trans σ1 σ2 σ3 : extends σ1 σ2 → extends σ2 σ3 → extends σ1 σ3.
Proof.
  intros [H1 H2] [H3 H4]. split; [intros k; etrans; [apply H1|apply H3]|].
  etrans; [apply H2|apply H4].
Qed.

Lemma extends_apply σ e : extends σ (apply σ e).
Proof.
  destruct e as [a d p| |m|h r|k p|m]; (split; [intros k'|]); simpl; try done.
  - by apply prefix_app_r.
  - rewrite lookup_insert. case_decide as E; [|done].
    rewrite E. simpl. by apply prefix_app_r.
Qed.

(** No list of [progress] and no output file ever gets shorter or
    changes at the front, whatever is logged. *)
Lemma replay_extends σ evs : extends σ (replay σ evs).
Proof.
  revert σ. induction evs as [|e evs IH]; intros σ; [apply extends_refl|].
  simpl. eapply extends_trans; [apply extends_apply|apply IH].
Qed.

Lemma replay_other_key σ evs k :
  (∀ kp, kp ∈ appends evs → kp.1 ≠ k) →
  progress (replay σ evs) !! k = progress σ !! k.
Proof.
  revert σ. induction evs as [|e evs IH]; intros σ H; [done|].
  simpl. rewrite IH.
  - destruct e as [a d p| |m|h r|k' p|m]; try done. simpl.
    apply lookup_insert_ne. apply (H (k', p)). left.
  - intros kp Hin. apply H. destruct e; try done. by right.
Qed.

(** X7: at every point of a call of [scrape_issue], the lists that
    [progress] holds under the keys of other issues are what they were,
    the list under the key of the issue is the old list with pages added
    at its end, and the output file is the old file with rows added at
    its end: nothing recorded or written before is removed or changed. *)
Theorem scrape_issue_only_appends σ max_pages :
  ∃ out evs,
    issue max_pages σ = (out, replay σ evs) ∧
    always (λ σ', (∀ k, k ≠ key → progress σ' !! k = progress σ !! k) ∧
                  default [] (progress σ !! key) `prefix_of` default [] (progress σ' !! key) ∧
                  default [] (output_file σ) `prefix_of` default [] (output_file σ'))
           σ evs.
Proof.
  destruct (scrape_issue_scan session_get strptime aid title date_str worker_id
              σ max_pages) as (out & evs & E & Hs).
  exists out, evs. split; [done|]. intros evs1 evs2 ->.
  destruct (replay_extends σ evs1) as [H1 H2]. split; [|by split].
  intros k Hk. apply replay_other_key. intros kp Hin.
  destruct (scan_rows _ _ _ _ _ _ _ _ _ _ _ Hs) as (_ & Ha & _).
  rewrite appends_app in Ha.
  assert (kp ∈ (λ r, (key, pretty (page r))) <$> rows (evs1 ++ evs2)) as Hin'.
  { rewrite <- Ha. apply elem_of_app. by left. }
  apply list_elem_of_fmap in Hin' as (r & -> & _). simpl. congruence.
Qed.

Lemma synced_same σ1 σ2 : same_store σ1 σ2 → synced σ1 → synced σ2.
Proof. unfold synced. by intros (-> & _ & ->). Qed.

(** The checkpoint file holds what [progress] holds when the page loop
    ends, if it did so before or a page has been recorded on the way;
    without a recorded page the loop leaves the store as it is. *)
Lemma scan_synced aliased ps results σ out evs :
  scan aliased ps results σ out evs →
  (synced σ ∨ appends evs ≠ [] → synced (replay σ evs)) ∧
  (appends evs = [] → same_store σ (replay σ evs)).
Proof.
  induction 1 as [results σ|p ps results σ out evs Hd Hs IH
                  |p ps results σ res tl Hd Hp Hq Hn|p ps results σ res tl Hd Hp Hq Hc Hdate
                  |p ps results σ res tl d t r σ1 out evs Hd Hp Hq Hc Ht Hdate Hr Hσ1 Hs IH].
  - split; [by intros [?|?]|]. intros _. apply same_store_refl.
  - done.
  - assert (same_store σ (replay σ (Get aid date_str p :: tl))) as Hsame
      by by apply replay_fetch.
    split; [|done]. intros [H|H]; [by eapply synced_same|].
    destruct H. change (appends (Get aid date_str p :: tl)) with (appends tl).
    by apply quiet_appends.
  - assert (same_store σ (replay σ (Get aid date_str p :: tl))) as Hsame
      by by apply replay_fetch.
    split; [|done]. intros [H|H]; [by eapply synced_same|].
    destruct H. change (appends (Get aid date_str p :: tl)) with (appends tl).
    by apply quiet_appends.
  - destruct IH as [IH _]. split.
    + intros _. rewrite !replay_app, <- Hσ1. apply IH. by left.
    + rewrite !appends_app. intros H. apply app_eq_nil in H as [_ H].
      discriminate H.
Qed.

(** X8: when a call of [scrape_issue] ends, with its rows or with an
    exception, the checkpoint file holds exactly what [progress] holds,
    provided it did so when the call started or the call has recorded at
    least one page. A call that records no page leaves [progress] and
    both files as they were. *)
Theorem checkpoint_current_at_return σ max_pages :
  ∃ out evs,
    issue max_pages σ = (out, replay σ evs) ∧
    (synced σ ∨ appends evs ≠ [] → synced (replay σ evs)) ∧
    (appends evs = [] → same_store σ (replay σ evs)).
Proof.
  destruct (scrape_issue_scan session_get strptime aid title date_str worker_id
              σ max_pages) as (out & evs & E & Hs).
  exists out, evs. split; [done|]. by eapply scan_synced.
Qed.

Lemma scan_raise_date aliased ps results σ e evs :
  scan aliased ps results σ (Raise e) evs → strptime date_str = None.
Proof.
  intros H. remember (Raise e) as out eqn:Eo.
  induction H; try done; auto.
Qed.

(** X9: the date of the issue decides whether a call of [scrape_issue]
    can fail. With a date that [strptime] reads the call returns its rows
    and raises nothing, whatever the remote answers. With a date that
    [strptime] rejects the call writes no row, records no page and writes
    no checkpoint; it returns the empty list, or it raises the
    [ValueError] of [strptime] at the first page that has content. *)
Theorem date_decides_failure σ max_pages :
  ∃ out evs,
    issue max_pages σ = (out, replay σ evs) ∧
    match strptime date_str with
    | Some _ => ∃ rs, out = Return rs
    | None =>
        rows evs = [] ∧ appends evs = [] ∧ dumps evs = [] ∧
        (out = Return [] ∨ out = Raise ValueError)
    end.
Proof.
  destruct (scrape_issue_scan session_get strptime aid title date_str worker_id
              σ max_pages) as (out & evs & E & Hs).
  exists out, evs. split; [done|].
  destruct (scan_rows _ _ _ _ _ _ _ _ _ _ _ Hs) as (Hres & Ha & Hd & Hrow & _).
  destruct (strptime date_str) as [d|] eqn:Hdate.
  - destruct (scan_outcome _ _ _ _ _ _ _ _ _ _ _ Hs) as [?| ->]; [done|].
    apply scan_raise_date in Hs. congruence.
  - assert (rows evs = []) as Hr.
    { destruct (rows evs) as [|r rs]; [done|].
      apply Forall_cons in Hrow as [(_ & _ & ? & _) _]. congruence. }
    rewrite Hr in *. split; [done|]. split; [done|].
    split; [by destruct (dumps evs)|].
    destruct (scan_outcome _ _ _ _ _ _ _ _ _ _ _ Hs) as [[rs ->]| ->]; [left|by right].
    by rewrite (Hres rs eq_refl).
Qed.

End store_extras.

(** ** The sizes and the order of the partitions *)

Section partition_extras.
Import Anno.
Context {A : Type}.
Implicit Types (df : list A).

Lemma partition_snoc (w N : Z) df (x : A) :
  partition w N (df ++ [x])
    = partition w N df
      ++ (if decide (Z.of_nat (length df) `mod` N = w - 1)%Z then [(length df, x)] else []).
Proof.
  unfold partition. rewrite imap_app, filter_app. f_equal. simpl.
  rewrite Nat.add_0_r. rewrite filter_cons. simpl. by case_decide.
Qed.

Lemma div_step (n N w : Z) :
  (1 ≤ w ≤ N)%Z → (0 ≤ n)%Z →
  ((n + 1 + N - w) `div` N
   = (n + N - w) `div` N + (if decide (n `mod` N = w - 1) then 1 else 0))%Z.
Proof.
  intros Hw Hn. set (m := (n + N - w)%Z).
  pose proof (Z.div_mod m N ltac:(lia)) as Hm.
  pose proof (Z.mod_pos_bound m N ltac:(lia)) as Hr.
  set (q := (m `div` N)%Z) in *. set (r := (m `mod` N)%Z) in *.
  replace (n + 1 + N - w)%Z with (m + 1)%Z by lia.
  destruct (decide (r = N - 1)%Z) as [E|E].
  - assert (n `mod` N = w - 1)%Z as Hmod.
    { symmetry. apply (Z.mod_unique n N q (w - 1)); lia. }
    rewrite decide_True by done. symmetry. apply (Z.div_unique (m + 1) N (q + 1) 0); lia.
  - assert (n `mod` N ≠ w - 1)%Z as Hmod.
    { destruct (decide (r + w < N)%Z).
      - rewrite <- (Z.mod_unique n N (q - 1) (r + w)); lia.
      - rewrite <- (Z.mod_unique n N q (r + w - N)); lia. }
    rewrite decide_False by done. rewrite Z.add_0_r. symmetry.
    apply (Z.div_unique (m + 1) N q (r + 1)); lia.
Qed.

Lemma partition_length (w N : Z) df :
  (1 ≤ w ≤ N)%Z →
  Z.of_nat (length (partition w N df)) = ((Z.of_nat (length df) + N - w) `div` N)%Z.
Proof.
  intros Hw. induction df as [|x df IH] using rev_ind.
  - simpl. symmetry. apply Z.div_small. lia.
  - rewrite partition_snoc, !length_app, !Nat2Z.inj_add, IH.
    change (Z.of_nat (length [x])) with 1%Z.
    rewrite div_step by lia. f_equal. by case_decide.
Qed.

(** X10: the partition of a worker with an id from 1 to [N] has
    [(n + N - id) div N] of the [n] issues, so the partitions of any two
    workers differ in size by one issue at most: each has [n div N]
    issues or one more. *)
Theorem partition_is_balanced (w N : Z) df :
  (1 ≤ w ≤ N)%Z →
  let n := Z.of_nat (length df) in
  let size := Z.of_nat (length (partition w N df)) in
  size = ((n + N - w) `div` N)%Z ∧ (n `div` N ≤ size ≤ n `div` N + 1)%Z.
Proof.
  intros Hw n size. unfold size. rewrite partition_length by done. fold n.
  split; [done|]. assert (0 ≤ n)%Z by lia. split.
  - apply Z.div_le_mono; lia.
  - replace (n `div` N + 1)%Z with ((n + 1 * N) `div` N)%Z by (apply Z.div_add; lia).
    apply Z.div_le_mono; lia.
Qed.

(** X11: a partition keeps the order of the issue list: its row
    indices are strictly increasing. A worker id outside 1 to [N] gets
    no issue at all, and a single worker, [N = 1], gets the whole list. *)
Theorem partition_keeps_order (w N : Z) df :
  (1 ≤ N)%Z →
  StronglySorted lt (fst <$> partition w N df) ∧
  (¬ (1 ≤ w ≤ N)%Z → partition w N df = []) ∧
  partition 1 1 df = imap pair df.
Proof.
  intros HN. split; [|split].
  - eapply (sublist_StronglySorted lt _ (fst <$> imap pair df)).
    + unfold partition. apply fmap_sublist. apply sublist_filter.
    + rewrite fmap_imap. rewrite (imap_ext _ (λ j _, j)) by done.
      rewrite imap_seq_0. rewrite list_fmap_id. apply StronglySorted_seq.
  - intros Hw. unfold partition.
    induction (imap pair df) as [|[i x] l IH]; [done|].
    rewrite filter_cons_False; [done|]. simpl.
    pose proof (Z.mod_pos_bound (Z.of_nat i) N ltac:(lia)). lia.
  - unfold partition. induction (imap pair df) as [|[i x] l IH]; [done|].
    rewrite filter_cons_True; [by rewrite IH|]. simpl.
    pose proof (Z.mod_pos_bound (Z.of_nat i) 1 ltac:(lia)). lia.
Qed.

End partition_extras.

Lemma partition_is_balanced_witness :
  let df := ["a"; "b"; "c"; "d"; "e"] in
  (1 ≤ 2 ≤ 3)%Z ∧ Z.of_nat (length (Anno.partition 2 3 df)) = ((5 + 3 - 2) `div` 3)%Z.
Proof.
  intros df. split; [lia|].
  exact (proj1 (partition_is_balanced 2 3 df ltac:(lia))).
Defined.

Lemma partition_keeps_order_witness :
  (1 ≤ 3)%Z ∧ StronglySorted lt (fst <$> Anno.partition 2 3 ["a"; "b"; "c"; "d"; "e"]).
Proof.
  split; [lia|].
  exact (proj1 (partition_keeps_order 2 3 ["a"; "b"; "c"; "d"; "e"] ltac:(lia))).
Defined.

(** ** The issue loop of [run_worker] *)

Section worker_facts.
Import Text Anno Anno.Http Spec.
Variable session_get : list event → string → outcome response.
Variable strptime : string → option (Z * Z * Z).
Variables (worker_id : Z) (total : nat).
Implicit Types (σ : state) (rows : list (nat * (cell * string * string))).

Local Abbreviation wloop := (worker_loop session_get strptime worker_id total).
Local Abbreviation wrun := (worker_run session_get strptime worker_id total).

Lemma worker_loop_cons idx aid title date rows completed σ :
  wloop ((idx, (IsStr aid, title, date)) :: rows) completed σ =
    let σ1 := apply σ (Print (start_message worker_id aid date σ)) in
    match scrape_issue session_get strptime aid title date worker_id 100 σ1 with
    | (Return [], σ2) => wloop rows completed σ2
    | (Return (r :: rs), σ2) =>
        wloop rows (S completed)
          (apply σ2 (Print (Fertig worker_id aid date (length (r :: rs)) (S completed) total)))
    | (Raise e, σ2) =>
        if is_PermissionError e
        then (Return completed, apply σ2 (Print (ZugriffBlockiert worker_id)))
        else (Raise e, σ2)
    end.
Proof.
  cbn [worker_loop]. unfold bind at 1. unfold get_progress at 1.
  unfold bind at 1.
  assert ((match progress σ !! issue_key aid date with
           | Some l =>
               if bool_decide (1 ≤ length l)
               then print (BereitsBegonnen worker_id aid date (length l))
               else print (Beginne worker_id aid date)
           | None => print (Beginne worker_id aid date)
           end) σ
          = (Return (), apply σ (Print (start_message worker_id aid date σ)))) as ->.
  { unfold start_message. destruct (progress σ !! issue_key aid date) as [l|]; [|done].
    by case_bool_decide. }
  cbv zeta. unfold bind at 1. unfold try_except at 1. unfold bind at 1.
  destruct (scrape_issue _ _ _ _ _ _ _ _) as [[[|r rs]|e] σ2]; try reflexivity.
  unfold is_PermissionError. destruct e; reflexivity.
Qed.

(** Every run of the issue loop is one of the runs [worker_run]
    describes, and its final state is the replay of its log: the
    [except PermissionError] branch is never taken. *)
Lemma worker_loop_run rows completed σ :
  ∃ out evs, wloop rows completed σ = (out, replay σ evs) ∧ wrun rows completed σ out evs.
Proof.
  revert completed σ.
  induction rows as [|[idx [[[aid|] title] date]] rows IH]; intros completed σ.
  { exists (Return completed), []. split; [done|]. constructor. }
  2:{ exists (Raise TypeError), []. split; [done|]. constructor. }
  rewrite worker_loop_cons. cbv zeta.
  set (σ1 := apply σ (Print (start_message worker_id aid date σ))).
  destruct (scrape_issue_scan session_get strptime aid title date worker_id σ1 100)
    as (out & evs & E & Hs).
  rewrite E.
  destruct (scan_outcome _ _ _ _ _ _ _ _ _ _ _ Hs) as [[results ->]| ->].
  - destruct results as [|r rs].
    + destruct (IH completed (replay σ1 evs)) as (out' & evs' & E' & Hw).
      exists out', (Print (start_message worker_id aid date σ) :: evs ++ [] ++ evs').
      split.
      * rewrite E'. simpl. fold σ1. by rewrite replay_app.
      * eapply worker_run_issue; [done|exact Hs|by left|]. by rewrite app_nil_r.
    + set (fin := Print (Fertig worker_id aid date (length (r :: rs)) (S completed) total)).
      destruct (IH (S completed) (apply (replay σ1 evs) fin)) as (out' & evs' & E' & Hw).
      exists out', (Print (start_message worker_id aid date σ) :: evs ++ [fin] ++ evs').
      split.
      * rewrite E'. simpl. fold σ1. by rewrite !replay_app.
      * eapply worker_run_issue; [done|exact Hs|right; by split| ].
        by rewrite replay_app.
  - exists (Raise ValueError), (Print (start_message worker_id aid date σ) :: evs).
    split; [done|]. by eapply worker_run_raise.
Qed.

End worker_facts.

Section worker_run_facts.
Import Text Anno Anno.Http Spec.
Variable session_get : list event → string → outcome response.
Variable strptime : string → option (Z * Z * Z).
Variables (worker_id : Z) (total : nat).
Implicit Types (σ : state) (rows : list (nat * (cell * string * string))).

Local Abbreviation wrun := (worker_run session_get strptime worker_id total).

Lemma quiet_no_get tl a d p : Forall quiet tl → Get a d p ∉ tl.
Proof.
  intros Hq Hin. eapply Forall_forall in Hq; [|exact Hin]. done.
Qed.

Lemma scan_get_args aid title date_str aliased ps results σ out evs :
  scan session_get strptime aid title date_str aliased ps results σ out evs →
  ∀ a d p, Get a d p ∈ evs → a = aid ∧ d = date_str ∧ p ∈ gets evs.
Proof.
  induction 1 as [results σ|p ps results σ out evs Hd Hs IH
                  |p ps results σ res tl Hd Hp Hq Hn|p ps results σ res tl Hd Hp Hq Hc Hdate
                  |p ps results σ res tl d t r σ1 out evs Hd Hp Hq Hc Ht Hdate Hr Hσ1 Hs IH];
    intros a' d' p' Hin.
  - by apply elem_of_nil in Hin.
  - auto.
  - rewrite fetch_gets by done. apply elem_of_cons in Hin as [[= -> -> ->]|Hin].
    + split; [done|]. split; [done|]. by left.
    + by apply quiet_no_get in Hin.
  - rewrite fetch_gets by done. apply elem_of_cons in Hin as [[= -> -> ->]|Hin].
    + split; [done|]. split; [done|]. by left.
    + by apply quiet_no_get in Hin.
  - rewrite gets_app, fetch_gets by done.
    apply elem_of_app in Hin as [Hin|Hin].
    + apply elem_of_cons in Hin as [[= -> -> ->]|Hin].
      * split; [done|]. split; [done|]. by left.
      * by apply quiet_no_get in Hin.
    + apply elem_of_app in Hin as [Hin|Hin].
      * apply elem_of_cons in Hin as [?|Hin]; [done|].
        apply elem_of_cons in Hin as [?|Hin]; [done|].
        apply elem_of_cons in Hin as [?|Hin]; [done|]. by apply elem_of_nil in Hin.
      * destruct (IH a' d' p' Hin) as (-> & -> & Hg). split; [done|]. split; [done|].
        by right.
Qed.


(** The requests of the issue loop belong to the rows it is given. *)
Lemma worker_run_gets rows completed σ out evs :
  wrun rows completed σ out evs →
  (∀ a d p, Get a d p ∈ evs →
     1 ≤ p ≤ 100 ∧ ∃ idx title, (idx, (IsStr a, title, d)) ∈ rows) ∧
  length (gets evs) ≤ 100 * length rows.
Proof.
  induction 1 as [completed σ
                  |idx aid title date rows completed σ σ1 results evs fin c' out evs'
                     Hσ1 Hs Hfin Hw IH
                  |idx aid title date rows completed σ σ1 evs Hσ1 Hs
                  |idx title date rows completed σ].
  4:{ split; [|simpl; lia]. intros a d p Hin. by apply elem_of_nil in Hin. }
  - split; [|simpl; lia]. intros a d p Hin. by apply elem_of_nil in Hin.
  - destruct IH as [IH1 IH2].
    pose proof (scan_gets _ _ _ _ _ _ _ _ _ _ _ Hs) as Hsub.
    assert (gets fin = []) as Hgf by (by destruct Hfin as [(_ & -> & _)|(_ & -> & _)]).
    split.
    + intros a d p Hin. apply elem_of_cons in Hin as [?|Hin]; [done|].
      apply elem_of_app in Hin as [Hin|Hin].
      * destruct (scan_get_args _ _ _ _ _ _ _ _ _ Hs a d p Hin) as (-> & -> & Hg).
        eapply elem_of_sublist in Hg; [|exact Hsub]. apply elem_of_seq in Hg.
        split; [lia|]. exists idx, title. by left.
      * apply elem_of_app in Hin as [Hin|Hin].
        { destruct Hfin as [(_ & -> & _)|(_ & -> & _)].
          - by apply elem_of_nil in Hin.
          - by apply list_elem_of_singleton in Hin. }
        destruct (IH1 a d p Hin) as (Hp & i & t & Hi). split; [done|].
        exists i, t. by right.
    + change (gets (Print ?m :: ?l)) with (gets l).
      rewrite !gets_app, Hgf, !length_app. simpl length.
      apply sublist_length in Hsub. rewrite length_seq in Hsub. lia.
  - pose proof (scan_gets _ _ _ _ _ _ _ _ _ _ _ Hs) as Hsub. split.
    + intros a d p Hin. apply elem_of_cons in Hin as [?|Hin]; [done|].
      destruct (scan_get_args _ _ _ _ _ _ _ _ _ Hs a d p Hin) as (-> & -> & Hg).
      eapply elem_of_sublist in Hg; [|exact Hsub]. apply elem_of_seq in Hg.
      split; [lia|]. exists idx, title. by left.
    + change (gets (Print ?m :: ?l)) with (gets l). simpl length.
      apply sublist_length in Hsub. rewrite length_seq in Hsub. lia.
Qed.

(** No page is requested that [progress] held for its issue in an
    earlier state. *)
Lemma worker_run_fresh σ0 rows completed σ out evs :
  wrun rows completed σ out evs →
  extends σ0 σ →
  ∀ a d p, Get a d p ∈ evs → pretty p ∉ default [] (progress σ0 !! issue_key a d).
Proof.
  induction 1 as [completed σ
                  |idx aid title date rows completed σ σ1 results evs fin c' out evs'
                     Hσ1 Hs Hfin Hw IH
                  |idx aid title date rows completed σ σ1 evs Hσ1 Hs
                  |idx title date rows completed σ];
    intros Hext a d p Hin.
  4:{ by apply elem_of_nil in Hin. }
  - by apply elem_of_nil in Hin.
  - assert (extends σ0 σ1) as Hext1.
    { rewrite Hσ1. eapply extends_trans; [exact Hext|apply extends_apply]. }
    apply elem_of_cons in Hin as [?|Hin]; [done|].
    apply elem_of_app in Hin as [Hin|Hin].
    + destruct (scan_get_args _ _ _ _ _ _ _ _ _ Hs a d p Hin) as (-> & -> & Hg).
      eapply scan_fresh in Hg; [|exact Hs]. rewrite done_pages_at_call in Hg.
      intros Hp. apply Hg. destruct Hext1 as [Hpre _].
      eapply elem_of_prefix; [exact Hp|apply Hpre].
    + apply elem_of_app in Hin as [Hin|Hin].
      { destruct Hfin as [(_ & -> & _)|(_ & -> & _)].
        - by apply elem_of_nil in Hin.
        - by apply list_elem_of_singleton in Hin. }
      apply (IH ltac:(eapply extends_trans; [exact Hext1|apply replay_extends]) a d p Hin).
  - assert (extends σ0 σ1) as Hext1.
    { rewrite Hσ1. eapply extends_trans; [exact Hext|apply extends_apply]. }
    apply elem_of_cons in Hin as [?|Hin]; [done|].
    destruct (scan_get_args _ _ _ _ _ _ _ _ _ Hs a d p Hin) as (-> & -> & Hg).
    eapply scan_fresh in Hg; [|exact Hs]. rewrite done_pages_at_call in Hg.
    intros Hp. apply Hg. destruct Hext1 as [Hpre _].
    eapply elem_of_prefix; [exact Hp|apply Hpre].
Qed.

Lemma replay_cons σ e evs : replay σ (e :: evs) = replay (apply σ e) evs.
Proof. reflexivity. Qed.

(** A property [Q] of the store holds at every point of the issue loop
    when a property [I] that implies it holds between the issues and one
    call of [scrape_issue] keeps both. *)
Lemma worker_run_always (I Q : state → Prop) rows completed σ out evs :
  (∀ σ1 σ2, same_store σ1 σ2 → I σ1 → I σ2) →
  (∀ σ1 σ2, same_store σ1 σ2 → Q σ1 → Q σ2) →
  (∀ σ1, I σ1 → Q σ1) →
  (∀ aid title date σ1 out1 evs1,
     scan session_get strptime aid title date
          (bool_decide (is_Some (progress σ1 !! issue_key aid date)))
          (seq 1 100) [] σ1 out1 evs1 →
     I σ1 → always Q σ1 evs1 ∧ I (replay σ1 evs1)) →
  wrun rows completed σ out evs →
  I σ → always Q σ evs ∧ I (replay σ evs).
Proof.
  intros HI HQ HIQ Hscan.
  induction 1 as [completed σ
                  |idx aid title date rows completed σ σ1 results evs fin c' out evs'
                     Hσ1 Hs Hfin Hw IH
                  |idx aid title date rows completed σ σ1 evs Hσ1 Hs
                  |idx title date rows completed σ];
    intros Hσ.
  4:{ split; [by apply always_nil, HIQ|done]. }
  - split; [by apply always_nil, HIQ|done].
  - assert (I σ1) as H1 by (rewrite Hσ1; by apply (HI σ)).
    destruct (Hscan _ _ _ _ _ _ Hs H1) as [Ha Hi].
    assert (always Q (replay σ1 evs) fin ∧ I (replay σ1 (evs ++ fin))) as [Hf Hif].
    { destruct Hfin as [(_ & -> & _)|(_ & -> & _)].
      - rewrite app_nil_r. split; [by apply always_nil, HIQ|done].
      - rewrite replay_app. split.
        + apply always_cons; [by apply HIQ|]. apply always_nil.
          apply HIQ. by apply (HI (replay σ1 evs)).
        + by apply (HI (replay σ1 evs)). }
    destruct (IH Hif) as [Ha' Hi']. split.
    + apply always_cons; [by apply HIQ|]. rewrite <- Hσ1.
      apply always_app; [done|]. apply always_app; [done|].
      by rewrite <- replay_app.
    + rewrite replay_cons, <- Hσ1. rewrite !replay_app. by rewrite replay_app in Hi'.
  - assert (I σ1) as H1 by (rewrite Hσ1; by apply (HI σ)).
    destruct (Hscan _ _ _ _ _ _ Hs H1) as [Ha Hi]. split.
    + apply always_cons; [by apply HIQ|]. by rewrite <- Hσ1.
    + by rewrite replay_cons, <- Hσ1.
Qed.

End worker_run_facts.

(** ** The whole run of a worker *)

Section run_worker_extras.
Import Text Anno Anno.Http Spec.
Variable session_get : list event → string → outcome response.
Variable strptime : string → option (Z * Z * Z).
Implicit Types (σ : state) (df : list (cell * string * string)).

Local Abbreviation worker := (run_worker session_get strptime).

Lemma always_quiet (P : state → Prop) σ evs :
  (∀ σ1 σ2, same_store σ1 σ2 → P σ1 → P σ2) →
  P σ → Forall quiet evs → always P σ evs.
Proof.
  intros HP H0 Hq evs1 evs2 ->. apply Forall_app in Hq as [Hq _].
  apply (HP σ); [by apply replay_quiet|done].
Qed.

(** The log of [run_worker]: the log of the issue loop, run from the
    state [load_progress] gives, and the closing message when the loop
    returns. *)
Lemma run_worker_log df w N σ :
  ∃ out evs fin,
    worker_run session_get strptime w (length (partition w N df))
               (partition w N df) 0 (loaded σ) out evs ∧
    Forall quiet fin ∧
    worker df w N σ
      = (match out with Return _ => Return () | Raise e => Raise e end,
         replay (loaded σ) (evs ++ fin)) ∧
    match out with
    | Return c => fin = [Print (AlleVerarbeitet w c)]
    | Raise _ => fin = []
    end.
Proof.
  unfold run_worker. cbv zeta. unfold bind at 1. unfold load_progress at 1.
  fold (loaded σ). unfold bind at 1.
  destruct (worker_loop_run session_get strptime w (length (partition w N df))
              (partition w N df) 0 (loaded σ)) as (out & evs & E & Hw).
  rewrite E. destruct out as [c|e].
  - exists (Return c), evs, [Print (AlleVerarbeitet w c)].
    split; [done|]. split; [by repeat constructor|]. split; [|done].
    by rewrite replay_app.
  - exists (Raise e), evs, []. split; [done|]. split; [constructor|]. split; [|done].
    by rewrite app_nil_r.
Qed.


(** X13: a worker sends requests for the issues of its own share of
    the issue list only, those whose row index modulo the worker count is
    its id minus one, and for pages from 1 to 100; so it sends at most
    100 requests per issue of its partition. *)
Theorem run_worker_requests_own_share df w N σ :
  ∃ evs,
    (worker df w N σ).2 = replay (loaded σ) evs ∧
    (∀ a d p, Get a d p ∈ evs →
       1 ≤ p ≤ 100 ∧
       ∃ idx title,
         df !! idx = Some (IsStr a, title, d) ∧ (Z.of_nat idx `mod` N = w - 1)%Z) ∧
    length (gets evs) ≤ 100 * length (partition w N df).
Proof.
  destruct (run_worker_log df w N σ) as (out & evs & fin & Hw & Hq & E & Hfin).
  exists (evs ++ fin). split; [by rewrite E|].
  destruct (worker_run_gets _ _ _ _ _ _ _ _ _ Hw) as [Hg Hl]. split.
  - intros a d p Hin. apply elem_of_app in Hin as [Hin|Hin].
    + destruct (Hg a d p Hin) as (Hp & idx & title & Hpart). split; [done|].
      exists idx, title. by apply elem_of_partition in Hpart.
    + by apply quiet_no_get in Hin.
  - by rewrite gets_app, (quiet_gets fin), app_nil_r.
Qed.

(** X14: a worker never requests a page that its checkpoint file
    records for the issue when the worker starts: after a restart the
    pages fetched before are skipped. *)
Theorem run_worker_skips_checkpointed_pages df w N σ :
  ∃ evs,
    (worker df w N σ).2 = replay (loaded σ) evs ∧
    ∀ a d p, Get a d p ∈ evs →
      pretty p ∉ default [] (default ∅ (progress_file σ) !! issue_key a d).
Proof.
  destruct (run_worker_log df w N σ) as (out & evs & fin & Hw & Hq & E & Hfin).
  exists (evs ++ fin). split; [by rewrite E|].
  intros a d p Hin. apply elem_of_app in Hin as [Hin|Hin].
  - apply (worker_run_fresh _ _ _ _ (loaded σ) _ _ _ _ _ Hw (extends_refl _) a d p Hin).
  - by apply quiet_no_get in Hin.
Qed.

Lemma scan_contiguous_call aid title date σ out evs n :
  scan session_get strptime aid title date
       (bool_decide (is_Some (progress σ !! issue_key aid date))) (seq 1 n) [] σ out evs →
  stored_contiguous σ →
  always stored_contiguous σ evs ∧ stored_contiguous (replay σ evs).
Proof.
  intros Hs HP.
  assert (∃ k, default [] (progress σ !! issue_key aid date) = pages_upto k) as [k Hk].
  { destruct (progress σ !! issue_key aid date) as [l|] eqn:El;
      [by apply (proj1 HP (issue_key aid date))|by exists 0]. }
  destruct (scan_contiguous _ _ _ _ _ _ _ _ _ _ _ Hs 1 n k) as [Ha _]; auto.
  - destruct k as [|k]; [by left|right]. split; [lia|].
    apply bool_decide_eq_true. destruct (progress σ !! issue_key aid date); [done|].
    by rewrite pages_upto_S in Hk; destruct (pages_upto k).
  - split; [done|]. by apply always_end.
Qed.

(** X15: when every list in the checkpoint file is ["1" .. "k"] for
    some [k], or there is no checkpoint file, every list in [progress] and
    in the file is of this form at every point of the whole run of a
    worker, through all the issues of its partition. *)
Theorem run_worker_keeps_progress_contiguous df w N σ :
  (∀ m, progress_file σ = Some m → contiguous m) →
  ∃ evs,
    (worker df w N σ).2 = replay (loaded σ) evs ∧
    always stored_contiguous (loaded σ) evs.
Proof.
  intros Hf.
  destruct (run_worker_log df w N σ) as (out & evs & fin & Hw & Hq & E & Hfin).
  exists (evs ++ fin). split; [by rewrite E|].
  assert (stored_contiguous (loaded σ)) as H0.
  { split; [|exact Hf]. simpl. destruct (progress_file σ) as [m|]; [by apply Hf|].
    intros k l. simpl. by rewrite lookup_empty. }
  destruct (worker_run_always session_get strptime w _ stored_contiguous stored_contiguous
              _ _ _ _ _ stored_contiguous_same stored_contiguous_same (λ _ H, H)
              (λ aid title date σ1 out1 evs1, scan_contiguous_call aid title date σ1 out1 evs1 100)
              Hw H0) as [Ha He].
  apply always_app; [done|].
  apply always_quiet; [apply stored_contiguous_same|done..].
Qed.

(** X16: when [run_worker] ends, with the closing message or with an
    exception, the checkpoint file holds exactly what [progress] holds
    (without a file, [progress] is empty): no page recorded in memory is
    missing in the file. The file holds every list it held when the
    worker started, with pages added at the end only, and the output file
    is the old one with rows added at its end. *)
Theorem run_worker_leaves_checkpoint_current df w N σ :
  let σ' := (worker df w N σ).2 in
  synced σ' ∧
  (∀ k, default [] (default ∅ (progress_file σ) !! k)
          `prefix_of` default [] (default ∅ (progress_file σ') !! k)) ∧
  default [] (output_file σ) `prefix_of` default [] (output_file σ').
Proof.
  destruct (run_worker_log df w N σ) as (out & evs & fin & Hw & Hq & E & Hfin).
  cbv zeta. rewrite E. simpl snd.
  assert (∀ σ1 σ2, same_store σ1 σ2 → synced σ1 → synced σ2) as Hsame.
  { unfold synced. by intros σ1 σ2 (-> & _ & ->). }
  assert (∀ aid title date σ1 out1 evs1,
            scan session_get strptime aid title date
                 (bool_decide (is_Some (progress σ1 !! issue_key aid date)))
                 (seq 1 100) [] σ1 out1 evs1 →
            synced σ1 →
            always (λ _, True) σ1 evs1 ∧ synced (replay σ1 evs1)) as Hstep.
  { intros aid title date σ1 out1 evs1 Hs H1. split; [done|].
    by apply (scan_synced _ _ _ _ _ _ _ _ _ _ _ Hs); left. }
  assert (synced (loaded σ)) as H0 by done.
  destruct (worker_run_always session_get strptime w _ synced (λ _, True)
              _ _ _ _ _ Hsame (λ _ _ _ H, H) (λ _ _, Logic.I) Hstep Hw H0) as [_ He].
  assert (synced (replay (loaded σ) (evs ++ fin))) as Hend.
  { rewrite replay_app. apply (Hsame (replay (loaded σ) evs)); [by apply replay_quiet|done]. }
  split; [done|].
  destruct (replay_extends (loaded σ) (evs ++ fin)) as [Hp Ho].
  split; [|exact Ho].
  intros k. unfold synced in Hend. rewrite Hend. apply Hp.
Qed.

End run_worker_extras.

Section run_worker_examples.
Import Text Anno Anno.Http Spec.

Lemma run_worker_keeps_progress_contiguous_witness :
  let session_get := λ (_ : list event) (_ : string),
    Return {| status_code := 200;
              Http.text := "[ 2021-05-04 - 20210504 - Seite 1 ] Hello world" |} in
  let df := [(IsStr "wrz", "Wiener Zeitung", "20210504");
             (IsStr "nfp", "Neue Freie Presse", "19140729")] in
  let σ := boot None (Some {[ "wrz_20210504" := ["1"; "2"] ]}) in
  ∃ evs,
    (run_worker session_get strptime_Ymd df 1 2 σ).2 = replay (loaded σ) evs ∧
    always stored_contiguous (loaded σ) evs.
Proof.
  intros session_get df σ.
  apply (run_worker_keeps_progress_contiguous session_get strptime_Ymd df 1 2 σ).
  intros m [= <-] k l Hl. apply lookup_singleton_Some in Hl as [_ <-]. by exists 2.
Defined.

End run_worker_examples.

(** * A further property of the merge step *)

Section merge_extras.
Import Text Anno Merge.
Implicit Types (r : record) (l : list record) (dir : gmap string (list record)).

Local Abbreviation rows_read dir :=
  (concat ((λ f, default [] (dir !! f)) <$> worker_files dir)).

Lemma row_le_antisym r1 r2 : row_le r1 r2 → row_le r2 r1 → compare_rows r1 r2 = Eq.
Proof.
  unfold row_le, row_leb. destruct good_rows as (_ & _ & Hopp).
  rewrite (Hopp r1 r2). by destruct (compare_rows r1 r2).
Qed.

Lemma sort_values_unique l l' :
  l ≡ₚ l' →
  (∀ r1 r2, r1 ∈ l → r2 ∈ l → compare_rows r1 r2 = Eq → r1 = r2) →
  sort_values l = sort_values l'.
Proof.
  intros Hp Hu. apply (StronglySorted_unique_strong row_le).
  - intros r1 r2 H1 H2 H12 H21. apply Hu.
    + by rewrite sort_values_perm in H1.
    + by rewrite sort_values_perm, <- Hp in H2.
    + by apply row_le_antisym.
  - apply sort_values_sorted.
  - apply sort_values_sorted.
  - by rewrite !sort_values_perm.
Qed.

(** X17: when no two rows of the worker files have the same
    [(aid, year, month, day, page)], the master file depends on the rows
    alone, not on the files they are in: two directories whose worker files
    hold the same rows, spread over the files in any way and in any order,
    get the same master file. *)
Theorem master_ignores_distribution dir dir' :
  worker_files dir ≠ [] → worker_files dir' ≠ [] →
  rows_read dir ≡ₚ rows_read dir' →
  (∀ r1 r2, r1 ∈ rows_read dir → r2 ∈ rows_read dir →
            compare_rows r1 r2 = Eq → r1 = r2) →
  ∃ master,
    main dir = Some (<[OUTPUT_FILE := master]> dir) ∧
    main dir' = Some (<[OUTPUT_FILE := master]> dir').
Proof.
  intros Hne Hne' Hp Hu. exists (sort_values (rows_read dir)). split.
  - unfold main. by destruct (worker_files dir).
  - rewrite (sort_values_unique _ _ Hp Hu).
    unfold main. by destruct (worker_files dir').
Qed.

End merge_extras.

Section merge_extras_examples.
Import Text Anno Merge.

Lemma master_ignores_distribution_witness :
  let r1 := {| title := "Wiener Zeitung"; aid := "wrz"; year := 2021; month := 5; day := 4;
               page := 1; text := "Hello world" |} in
  let r2 := {| title := "Neue Freie Presse"; aid := "nfp"; year := 1900; month := 1; day := 2;
               page := 1; text := "Guten Morgen" |} in
  let dir : gmap string (list record) :=
    {[ "output_worker_1.csv" := [r1]; "output_worker_2.csv" := [r2] ]} in
  let dir' : gmap string (list record) := {[ "output_worker_1.csv" := [r1; r2] ]} in
  ∃ master,
    main dir = Some (<[OUTPUT_FILE := master]> dir) ∧
    main dir' = Some (<[OUTPUT_FILE := master]> dir').
Proof.
  intros r1 r2 dir dir'.
  assert (worker_files dir ≠ []) as Hne by (vm_compute; discriminate).
  assert (worker_files dir' ≠ []) as Hne' by (vm_compute; discriminate).
  assert (concat ((λ f, default [] (dir !! f)) <$> worker_files dir) = [r1; r2]) as E
    by (vm_compute; reflexivity).
  assert (concat ((λ f, default [] (dir' !! f)) <$> worker_files dir') = [r1; r2]) as E'
    by (vm_compute; reflexivity).
  apply (master_ignores_distribution dir dir' Hne Hne').
  - rewrite E, E'. reflexivity.
  - rewrite E. intros x y Hx Hy.
    apply elem_of_cons in Hx as [->|Hx]; [|apply list_elem_of_singleton in Hx as ->];
      (apply elem_of_cons in Hy as [->|Hy]; [|apply list_elem_of_singleton in Hy as ->]);
      intros H; try reflexivity; vm_compute in H; discriminate H.
Defined.

End merge_extras_examples.
